(** * SourcePawn JIT driver (vm/jit.cpp): a shallow embedding and its properties

    The development follows [vm/jit.cpp]: the compile driver
    [CompilerBase::emit], its caller [CompilerBase::Compile], the thunk
    patcher [CompilerBase::CompileFromThunk], the entry-frame walk
    [CompilerBase::find_entry_fp] and the two out-of-line error paths.

    Pointers are integers ([Z], [nullptr] is [0]); a pointer into the code
    segment is the index of its cell.  The assembler buffer is the list of
    the operations appended to it, in emission order. *)

From Stdlib Require Import ZArith List Bool Lia.
From Stdlib Require Import Sorted.
Import ListNotations.
Open Scope Z_scope.

(** ** Machine integers *)

Definition cell_t := Z.

(** [int32_t(x)] for a 32-bit [x]: reinterpretation in two's complement. *)
Definition int32_t (x : Z) : Z := (x + 2 ^ 31) mod 2 ^ 32 - 2 ^ 31.

(** ** Error codes

    Modelled from the spec: the closed set of error codes of section 6.  The
    macros live in the public header [sp_vm_types.h], outside [vm/jit.cpp];
    the values below are the ones of that header. *)

Definition SP_ERROR_NONE : Z := 0.
Definition SP_ERROR_HEAPLOW : Z := 3.
Definition SP_ERROR_INVALID_ADDRESS : Z := 5.
Definition SP_ERROR_STACKLOW : Z := 8.
Definition SP_ERROR_MEMACCESS : Z := 11.
Definition SP_ERROR_STACKMIN : Z := 12.
Definition SP_ERROR_HEAPMIN : Z := 13.
Definition SP_ERROR_DIVIDE_BY_ZERO : Z := 14.
Definition SP_ERROR_ARRAY_BOUNDS : Z := 15.
Definition SP_ERROR_INVALID_NATIVE : Z := 21.
Definition SP_ERROR_OUT_OF_MEMORY : Z := 28.
Definition SP_ERROR_INTEGER_OVERFLOW : Z := 29.
Definition SP_ERROR_TIMEOUT : Z := 30.
Definition SP_MAX_ERROR_CODES : Z := 33.

(** ** Native frames ([stack-frames.h])

    Modelled from the spec: [JitFrameIterator] is a forward-only iterator
    over native frames, deepest first, with
    [frame() -> { frame_type, prev_fp }].  The iterator is the list of the
    frames it will yield. *)

Inductive JitFrameType := Scripted | Entry | Helper.

Definition JitFrameType_eqb (a b : JitFrameType) : bool :=
  match a, b with
  | Scripted, Scripted | Entry, Entry | Helper, Helper => true
  | _, _ => false
  end.

Record FrameLayout := mkFrame {
  frame_type : JitFrameType;
  prev_fp : Z
}.

Definition JitFrameIterator := list FrameLayout.

(** The loop of [find_entry_fp]: [fp] is the local variable, the list is
    what the iterator has left ([done()] is the empty list, [next()] the
    tail). *)
Fixpoint find_entry_fp_loop (iter : JitFrameIterator) (fp : Z) : Z :=
  match iter with
  | [] => fp
  | frame :: rest =>
      if JitFrameType_eqb (frame_type frame) Entry then fp
      else find_entry_fp_loop rest (prev_fp frame)
  end.

(** [CompilerBase::find_entry_fp]: [fp] starts as [nullptr]; after the
    loop [assert(fp)] stops the program when [fp] is still null, so the
    function returns a pointer ([Some]) only when the assertion holds, and
    [None] stands for the failed assertion. *)
Definition find_entry_fp (iter : JitFrameIterator) : option Z :=
  let fp := find_entry_fp_loop iter 0 in
  if fp =? 0 then None else Some fp.


(** ** Labels ([assembler.h])

    Modelled from the spec: a label is a tagged value, unbound (holding its
    pending patch sites) or bound (holding a buffer offset); it is "used"
    iff some site referenced it (or it is bound).

    Labels are named by the place that owns them.  The jump map, the
    error-path table and the labels of the out-of-line paths are bound by
    the driver in [jit.cpp]; [report_error_], [throw_timeout_] and the
    labels local to an opcode emitter are bound by the architecture
    backend. *)

Inductive BackendLabel :=
| report_error_
| throw_timeout_
| local_label (n : nat).

Inductive LabelId :=
| jump_map_ (idx : Z)
| throw_error_code_ (err : Z)
| ool_label (i : nat)
| backend_label (l : BackendLabel).

Definition BackendLabel_eqb (a b : BackendLabel) : bool :=
  match a, b with
  | report_error_, report_error_ => true
  | throw_timeout_, throw_timeout_ => true
  | local_label n, local_label m => Nat.eqb n m
  | _, _ => false
  end.

Definition LabelId_eqb (a b : LabelId) : bool :=
  match a, b with
  | jump_map_ i, jump_map_ j => Z.eqb i j
  | throw_error_code_ e, throw_error_code_ f => Z.eqb e f
  | ool_label i, ool_label j => Nat.eqb i j
  | backend_label l, backend_label m => BackendLabel_eqb l m
  | _, _ => false
  end.

Inductive Label :=
| Unbound (sites : list Z)
| Bound (offset : Z).

Definition used (l : Label) : bool :=
  match l with
  | Unbound [] => false
  | _ => true
  end.

Definition bound (l : Label) : bool :=
  match l with
  | Bound _ => true
  | Unbound _ => false
  end.

(** ** The assembler buffer

    Modelled from the spec: an append-only builder of native instructions
    with symbolic labels, consumed through [bind(label)], [call(label)],
    [alignStack()] and [pc()]. *)

Inductive AsmOp :=
| OpBind (l : LabelId)
| OpCall (l : LabelId)
| OpJump (l : LabelId)
| OpAlignStack
| OpMovErr (err : Z)
| OpRaw (bytes : list Z).

(** The encoded size of an operation is the architecture's business. *)
Class Arch := { insn_size : AsmOp -> Z }.

Definition LabelTable := LabelId -> Label.

Definition set_label (t : LabelTable) (l : LabelId) (v : Label) : LabelTable :=
  fun k => if LabelId_eqb k l then v else t k.

Record Assembler := mkAsm {
  buffer : list AsmOp;
  pc : Z;
  labels : LabelTable
}.

Definition empty_labels : LabelTable := fun _ => Unbound [].

Definition new_masm : Assembler :=
  {| buffer := []; pc := 0; labels := empty_labels |}.

(** The label referenced by an operation, if any. *)
Definition op_target (op : AsmOp) : option LabelId :=
  match op with
  | OpCall l | OpJump l => Some l
  | _ => None
  end.

(** A reference to an unbound label is queued on it; a bound label is
    resolved at once and keeps its state. *)
Definition add_pending (t : LabelTable) (l : LabelId) (site : Z) : LabelTable :=
  match t l with
  | Unbound sites => set_label t l (Unbound (site :: sites))
  | Bound _ => t
  end.

Section Assembling.
Context {arch : Arch}.

(** Append one operation; [pc] advances by its size. *)
Definition append (op : AsmOp) (m : Assembler) : Assembler :=
  let pc' := pc m + insn_size op in
  {| buffer := buffer m ++ [op];
     pc := pc';
     labels := match op with
               | OpBind l => set_label (labels m) l (Bound (pc m))
               | OpCall l | OpJump l => add_pending (labels m) l pc'
               | _ => labels m
               end |}.

Definition bind (l : LabelId) : Assembler -> Assembler := append (OpBind l).
Definition call (l : LabelId) : Assembler -> Assembler := append (OpCall l).
Definition jmp (l : LabelId) : Assembler -> Assembler := append (OpJump l).
Definition alignStack : Assembler -> Assembler := append OpAlignStack.

End Assembling.

(** ** Records of the driver ([jit.h], [compiled-function.h]) *)

Record BackwardJump := mkBackwardJump {
  bj_pc : Z;              (* uint32_t pc: native pc of the branch *)
  bj_cip : Z;             (* const cell_t* cip *)
  bj_timeout_offset : Z   (* uint32_t timeout_offset *)
}.

Record CipMapEntry := mkCipMapEntry {
  cipoffs : Z;
  pcoffs : Z
}.

Record LoopEdge := mkLoopEdge {
  offset : Z;   (* uint32_t *)
  disp32 : Z    (* int32_t *)
}.

(** The two concrete out-of-line paths of [outofline-asm.h]; the label a
    path owns is [ool_label i] for the path at index [i] of the
    registry. *)
Inductive OutOfLinePath :=
| ErrorPath (cip : Z) (err : Z)
| OutOfBoundsErrorPath (cip : Z) (bounds : Z).

Record CompiledFunction := mkCompiledFunction {
  cf_code : Z;                    (* CodeChunk: its address *)
  cf_pcode_offs : Z;
  cf_edges : list LoopEdge;
  cf_cipmap : list CipMapEntry
}.

Definition GetEntryAddress (fn : CompiledFunction) : Z := cf_code fn.

(** The state of a [CompilerBase] object.  [rt_code] is the code segment
    of the runtime, as cells; [pcode_start_] is a byte offset into it. *)
Record Compiler := mkCompiler {
  rt_code : list cell_t;
  pcode_start_ : Z;
  masm : Assembler;
  error_ : Z;
  op_cip_ : option Z;
  ool_paths_ : list OutOfLinePath;
  backward_jumps_ : list BackwardJump;
  cip_map_ : list CipMapEntry
}.

Definition set_masm (m : Assembler) (c : Compiler) : Compiler :=
  {| rt_code := rt_code c; pcode_start_ := pcode_start_ c; masm := m;
     error_ := error_ c; op_cip_ := op_cip_ c; ool_paths_ := ool_paths_ c;
     backward_jumps_ := backward_jumps_ c; cip_map_ := cip_map_ c |}.

Definition set_error (e : Z) (c : Compiler) : Compiler :=
  {| rt_code := rt_code c; pcode_start_ := pcode_start_ c; masm := masm c;
     error_ := e; op_cip_ := op_cip_ c; ool_paths_ := ool_paths_ c;
     backward_jumps_ := backward_jumps_ c; cip_map_ := cip_map_ c |}.

Definition set_op_cip (cip : Z) (c : Compiler) : Compiler :=
  {| rt_code := rt_code c; pcode_start_ := pcode_start_ c; masm := masm c;
     error_ := error_ c; op_cip_ := Some cip; ool_paths_ := ool_paths_ c;
     backward_jumps_ := backward_jumps_ c; cip_map_ := cip_map_ c |}.

Definition set_ool_paths (ps : list OutOfLinePath) (c : Compiler) : Compiler :=
  {| rt_code := rt_code c; pcode_start_ := pcode_start_ c; masm := masm c;
     error_ := error_ c; op_cip_ := op_cip_ c; ool_paths_ := ps;
     backward_jumps_ := backward_jumps_ c; cip_map_ := cip_map_ c |}.

Definition set_backward_jumps (js : list BackwardJump) (c : Compiler) : Compiler :=
  {| rt_code := rt_code c; pcode_start_ := pcode_start_ c; masm := masm c;
     error_ := error_ c; op_cip_ := op_cip_ c; ool_paths_ := ool_paths_ c;
     backward_jumps_ := js; cip_map_ := cip_map_ c |}.

Definition set_cip_map (cm : list CipMapEntry) (c : Compiler) : Compiler :=
  {| rt_code := rt_code c; pcode_start_ := pcode_start_ c; masm := masm c;
     error_ := error_ c; op_cip_ := op_cip_ c; ool_paths_ := ool_paths_ c;
     backward_jumps_ := backward_jumps_ c; cip_map_ := cm |}.

(** [CompilerBase::CompilerBase]: [code_start_] is the cell at byte
    [pcode_offs]; the jump map, [Label[nmaxops]], starts all unbound. *)
Definition new_Compiler (code : list cell_t) (pcode_offs : cell_t) : Compiler :=
  {| rt_code := code; pcode_start_ := pcode_offs; masm := new_masm;
     error_ := SP_ERROR_NONE; op_cip_ := None; ool_paths_ := [];
     backward_jumps_ := []; cip_map_ := [] |}.

(** [sizeof(cell_t)] and the size of the jump map. *)
Definition sizeof_cell_t : Z := 4.
Definition nmaxops (code : list cell_t) : Z :=
  (sizeof_cell_t * Z.of_nat (length code)) / sizeof_cell_t + 1.

(** [code_start_], as a cell index from the base of the code segment. *)
Definition code_start_ (c : Compiler) : Z := pcode_start_ c / sizeof_cell_t.

(** [CompilerBase::reportError] *)
Definition reportError (err : Z) (c : Compiler) : Compiler := set_error err c.

(** [CompilerBase::error] *)
Definition error (c : Compiler) : Z := error_ c.

(** ** The architecture backend

    The per-opcode emitters, [emitPrologue], [emitOutOfBoundsErrorPath],
    [emitErrorHandlers] and [LinkCode] are not part of [jit.cpp].  They act
    on the compiler through its members, so each is taken as the list of
    member calls it makes, computed from the compiler it is handed.

    An emitter appends to the assembler, may bind its own labels, may call
    [reportError] and [emitCipMapping].  An opcode visitor may moreover
    register an out-of-line path and record a backward jump. *)

Inductive EmitAction :=
| DoCall (l : LabelId)
| DoJump (l : LabelId)
| DoBind (l : BackendLabel)
| DoAlignStack
| DoRaw (bytes : list Z)
| DoReportError (err : Z)
| DoCipMapping (cip : Z).

Inductive VisitAction :=
| Emit (a : EmitAction)
| AddOutOfLine (path : OutOfLinePath)
| AddBackwardJump (branch_pc : Z) (cip : Z).

Record VisitResult := mkVisitResult {
  vr_ok : bool;                    (* what the visitor returns *)
  vr_operands : nat;               (* operand cells the reader consumed *)
  vr_actions : list VisitAction
}.

Class Backend := {
  OP_PROC : cell_t;
  OP_ENDPROC : cell_t;
  emitPrologue : Compiler -> list EmitAction;
  visit : cell_t -> list cell_t -> Compiler -> VisitResult;
  emitOutOfBoundsErrorPath : Z -> Z -> Compiler -> list EmitAction;
  emitErrorHandlers : Compiler -> list EmitAction;
  LinkCode : Assembler -> Z
}.

(** ** The p-code reader ([pcode-reader.h])

    Modelled from the spec: a forward-only cursor over the code segment
    with [begin()], [more()] (cells remain), [peekOpcode()] (next opcode
    without consuming), [visitNext()] (consume the next opcode and dispatch
    it to the visitor) and [cip()].  [begin()] steps over the [PROC] that
    opens the function, so that only a later [PROC] is a boundary. *)

Record PcodeReader := mkReader {
  code_ : list cell_t;
  cip_ : nat
}.

Definition new_PcodeReader (code : list cell_t) (startOffset : Z) : PcodeReader :=
  {| code_ := code; cip_ := Z.to_nat (startOffset / sizeof_cell_t) |}.

Definition begin (r : PcodeReader) : PcodeReader :=
  {| code_ := code_ r; cip_ := S (cip_ r) |}.

Definition more (r : PcodeReader) : bool :=
  Nat.ltb (cip_ r) (length (code_ r)).

Definition peekOpcode (r : PcodeReader) : cell_t :=
  nth (cip_ r) (code_ r) 0.

(** [reader.cip() - codeseg], in cells. *)
Definition cip (r : PcodeReader) : Z := Z.of_nat (cip_ r).

Section Driver.
Context {arch : Arch} {backend : Backend}.

(** Modelled from the spec: [emitCipMapping] appends the pair (native pc,
    p-code cip) to the cip map. *)
Definition emitCipMapping (cip : Z) (c : Compiler) : Compiler :=
  set_cip_map (cip_map_ c ++ [{| cipoffs := cip; pcoffs := pc (masm c) |}]) c.

Definition run_emit_action (a : EmitAction) (c : Compiler) : Compiler :=
  match a with
  | DoCall l => set_masm (call l (masm c)) c
  | DoJump l => set_masm (jmp l (masm c)) c
  | DoBind l => set_masm (bind (backend_label l) (masm c)) c
  | DoAlignStack => set_masm (alignStack (masm c)) c
  | DoRaw bytes => set_masm (append (OpRaw bytes) (masm c)) c
  | DoReportError err => reportError err c
  | DoCipMapping cip => emitCipMapping cip c
  end.

Definition run_emit (acts : list EmitAction) (c : Compiler) : Compiler :=
  fold_left (fun c a => run_emit_action a c) acts c.

Definition run_visit_action (a : VisitAction) (c : Compiler) : Compiler :=
  match a with
  | Emit a => run_emit_action a c
  | AddOutOfLine path => set_ool_paths (ool_paths_ c ++ [path]) c
  | AddBackwardJump branch_pc cip =>
      set_backward_jumps
        (backward_jumps_ c ++
         [{| bj_pc := branch_pc; bj_cip := cip; bj_timeout_offset := 0 |}]) c
  end.

Definition run_visit (acts : list VisitAction) (c : Compiler) : Compiler :=
  fold_left (fun c a => run_visit_action a c) acts c.

(** [PcodeReader::visitNext]: the opcode under the cursor is dispatched
    with the cells that follow it; the cursor moves past the opcode and
    its operands. *)
Definition visitNext (r : PcodeReader) (c : Compiler)
  : bool * PcodeReader * Compiler :=
  let res := visit (peekOpcode r) (skipn (S (cip_ r)) (code_ r)) c in
  (vr_ok res,
   {| code_ := code_ r; cip_ := S (cip_ r + vr_operands res) |},
   run_visit (vr_actions res) c).

(** *** [CompilerBase::emit], phase by phase *)

Inductive LoopExit :=
| LoopEnd        (* [reader.more()] is false *)
| LoopBoundary   (* the [break] on [OP_PROC] / [OP_ENDPROC] *)
| LoopAbort.     (* [return nullptr] *)

Definition is_boundary (op : cell_t) : bool :=
  (op =? OP_PROC) || (op =? OP_ENDPROC).

(** What the loop body does before it dispatches: bind the jump-map label
    of the instruction and save its cip. *)
Definition before_visit (r : PcodeReader) (c : Compiler) : Compiler :=
  set_op_cip (cip r) (set_masm (bind (jump_map_ (cip r)) (masm c)) c).

(** The [while (reader.more())] loop.  Every iteration consumes a cell, so
    the cells left to read bound the iterations. *)
Fixpoint decode_loop (fuel : nat) (r : PcodeReader) (c : Compiler)
  : LoopExit * PcodeReader * Compiler :=
  match fuel with
  | O => (LoopEnd, r, c)
  | S fuel' =>
      if more r then
        if is_boundary (peekOpcode r) then (LoopBoundary, r, c)
        else
          let '(ok, r', c') := visitNext r (before_visit r c) in
          if negb ok || negb (error_ c' =? 0) then (LoopAbort, r', c')
          else decode_loop fuel' r' c'
      else (LoopEnd, r, c)
  end.

Definition cells_left (r : PcodeReader) : nat := length (code_ r) - cip_ r.

(** The iterations of the decode loop, for stating what holds at each:
    the reader at the top of the iteration, the compiler handed to the
    visitor (label bound, [op_cip_] saved), what the visitor returned and
    the compiler it left. *)
Record Visit := mkVisit {
  v_reader : PcodeReader;
  v_before : Compiler;
  v_ok : bool;
  v_after : Compiler
}.

Fixpoint decode_visits (fuel : nat) (r : PcodeReader) (c : Compiler)
  : list Visit :=
  match fuel with
  | O => []
  | S fuel' =>
      if more r then
        if is_boundary (peekOpcode r) then []
        else
          let '(ok, r', c') := visitNext r (before_visit r c) in
          {| v_reader := r; v_before := before_visit r c;
             v_ok := ok; v_after := c' |} ::
          (if negb ok || negb (error_ c' =? 0) then []
           else decode_visits fuel' r' c')
      else []
  end.

(** [CompilerBase::emitErrorPath] *)
Definition emitErrorPath (cip err : Z) (c : Compiler) : Compiler :=
  let c1 := set_masm (alignStack (masm c)) c in
  let c2 :=
    if err =? 0 then set_masm (call (backend_label report_error_) (masm c1)) c1
    else set_masm (call (throw_error_code_ err) (masm c1)) c1 in
  emitCipMapping cip c2.

(** [ErrorPath::emit] and [OutOfBoundsErrorPath::emit] *)
Definition OutOfLinePath_emit (path : OutOfLinePath) (c : Compiler)
  : bool * Compiler :=
  match path with
  | ErrorPath cip err => (true, emitErrorPath cip err c)
  | OutOfBoundsErrorPath cip bounds =>
      (true, run_emit (emitOutOfBoundsErrorPath cip bounds c) c)
  end.

(** The loop over [ool_paths_], from index [i] on.  Emitters cannot
    register paths, so the registry is the same list at every
    iteration. *)
Fixpoint emit_ool_paths (i : nat) (paths : list OutOfLinePath) (c : Compiler)
  : bool * Compiler :=
  match paths with
  | [] => (true, c)
  | path :: rest =>
      let c1 := set_masm (bind (ool_label i) (masm c)) c in
      let '(ok, c2) := OutOfLinePath_emit path c1 in
      if negb ok then (false, c2) else emit_ool_paths (S i) rest c2
  end.

(** The loop over [backward_jumps_]: each record gets its
    [timeout_offset], a call to [throw_timeout_] and a cip-map entry. *)
Fixpoint emit_timeout_thunks (jumps : list BackwardJump) (c : Compiler)
  : list BackwardJump * Compiler :=
  match jumps with
  | [] => ([], c)
  | jump :: rest =>
      let jump' := {| bj_pc := bj_pc jump; bj_cip := bj_cip jump;
                      bj_timeout_offset := pc (masm c) |} in
      let c1 := set_masm (call (backend_label throw_timeout_) (masm c)) c in
      let c2 := emitCipMapping (bj_cip jump) c1 in
      let '(rest', c3) := emit_timeout_thunks rest c2 in
      (jump' :: rest', c3)
  end.

(** Modelled from the spec: [emitThrowPath] moves the error code into the
    error-code register and jumps to the generic report-error routine. *)
Definition emitThrowPath (err : Z) (c : Compiler) : Compiler :=
  let c1 := set_masm (append (OpMovErr err) (masm c)) c in
  set_masm (jmp (backend_label report_error_) (masm c1)) c1.

(** [CompilerBase::emitThrowPathIfNeeded] *)
Definition emitThrowPathIfNeeded (err : Z) (c : Compiler) : Compiler :=
  if negb (used (labels (masm c) (throw_error_code_ err))) then c
  else emitThrowPath err (set_masm (bind (throw_error_code_ err) (masm c)) c).

(** The error codes whose shared path [emit] considers, in its order. *)
Definition throw_path_errors : list Z :=
  [SP_ERROR_DIVIDE_BY_ZERO; SP_ERROR_STACKLOW; SP_ERROR_STACKMIN;
   SP_ERROR_ARRAY_BOUNDS; SP_ERROR_MEMACCESS; SP_ERROR_HEAPLOW;
   SP_ERROR_HEAPMIN; SP_ERROR_INTEGER_OVERFLOW; SP_ERROR_INVALID_NATIVE].

Definition emit_throw_paths (errs : list Z) (c : Compiler) : Compiler :=
  fold_left (fun c err => emitThrowPathIfNeeded err c) errs c.

(** The [LoopEdge] of a backward-jump record. *)
Definition loop_edge (jump : BackwardJump) : LoopEdge :=
  {| offset := bj_pc jump;
     disp32 := int32_t (int32_t (bj_timeout_offset jump) - int32_t (bj_pc jump)) |}.

(** The state in which the decode loop starts: prologue emitted, reader
    begun. *)
Definition after_prologue (c : Compiler) : Compiler :=
  run_emit (emitPrologue c) c.

Definition reader_at_start (c : Compiler) : PcodeReader :=
  begin (new_PcodeReader (rt_code c) (pcode_start_ c)).

Definition run_decode_loop (c : Compiler) : LoopExit * PcodeReader * Compiler :=
  decode_loop (cells_left (reader_at_start c)) (reader_at_start c)
              (after_prologue c).

Definition run_visits (c : Compiler) : list Visit :=
  decode_visits (cells_left (reader_at_start c)) (reader_at_start c)
                (after_prologue c).

(** The backward-jump loop as a whole: the records are updated in
    place. *)
Definition emit_backward_jump_thunks (c : Compiler) : Compiler :=
  let '(jumps, c') := emit_timeout_thunks (backward_jumps_ c) c in
  set_backward_jumps jumps c'.

(** Everything after the decode loop up to the last [if (error_)]; [false]
    is the [return nullptr] of the out-of-line loop. *)
Definition emit_tail (c : Compiler) : bool * Compiler :=
  let '(ok, c1) := emit_ool_paths 0 (ool_paths_ c) c in
  if negb ok then (false, c1)
  else
    let c2 := emit_backward_jump_thunks c1 in
    let c3 := emit_throw_paths throw_path_errors c2 in
    (true, run_emit (emitErrorHandlers c3) c3).

(** Linking and the construction of the result. *)
Definition emit_link (c : Compiler) : option CompiledFunction * Compiler :=
  if negb (error_ c =? 0) then (None, c)
  else
    let code := LinkCode (masm c) in
    if code =? 0 then (None, reportError SP_ERROR_OUT_OF_MEMORY c)
    else
      (Some {| cf_code := code;
               cf_pcode_offs := pcode_start_ c;
               cf_edges := map loop_edge (backward_jumps_ c);
               cf_cipmap := cip_map_ c |}, c).

(** [CompilerBase::emit]: the result and the compiler it leaves. *)
Definition emit (c : Compiler) : option CompiledFunction * Compiler :=
  match run_decode_loop c with
  | (LoopAbort, _, c1) => (None, c1)
  | (_, _, c1) =>
      let '(ok, c2) := emit_tail c1 in
      if negb ok then (None, c2) else emit_link c2
  end.

(** The compiler of a compile that got past the decode loop, just before
    and just after the nine [emitThrowPathIfNeeded] calls. *)
Definition after_decode_loop (c : Compiler) : Compiler :=
  snd (run_decode_loop c).

Definition before_throw_paths (c : Compiler) : Compiler :=
  let c1 := after_decode_loop c in
  emit_backward_jump_thunks (snd (emit_ool_paths 0 (ool_paths_ c1) c1)).

Definition after_throw_paths (c : Compiler) : Compiler :=
  emit_throw_paths throw_path_errors (before_throw_paths c).

(** The contract of the opcode visitors towards the driver: a visitor
    that returns [false] has reported an error. *)
Definition visitors_report_failure : Prop :=
  forall op cells c,
    vr_ok (visit op cells c) = false ->
    error_ (run_visit (vr_actions (visit op cells c)) c) <> SP_ERROR_NONE.

(** *** The runtime seen by the thunk patcher

    Modelled from the spec: the method table of the runtime
    ([AcquireMethod], [Validate() -> status], [jit()],
    [setCompiledFunction(cf)]), the watchdog's [HandleInterrupt() -> bool]
    and [PatchCallThunk(patch_site, entry)], which rewrites the target of
    one call site.  A [RefPtr<MethodInfo>] is the key of the method in the
    table, so that [setCompiledFunction] is seen by every holder. *)

Record MethodInfo := mkMethodInfo {
  pcode_offset : Z;
  Validate : Z;                         (* the status [Validate()] returns *)
  jit : option CompiledFunction
}.

Definition setCompiledFunction (fn : CompiledFunction) (m : MethodInfo) : MethodInfo :=
  {| pcode_offset := pcode_offset m; Validate := Validate m; jit := Some fn |}.

(** What a call does to the world outside the compiler, in order. *)
Inductive Effect :=
| RanCompile (pcode_offs : Z)
| SetCompiledFunction (pcode_offs : Z) (fn : CompiledFunction)
| StoreEntry (addrp : Z) (entry : Z)
| PatchedCall (site : Z) (entry : Z).

Record World := mkWorld {
  HandleInterrupt : bool;               (* [watchdog()->HandleInterrupt()] *)
  code : list cell_t;                   (* [rt->code()] as cells *)
  methods : Z -> option MethodInfo;     (* [rt->AcquireMethod] *)
  pointers : Z -> Z;                    (* memory reached through [addrp] *)
  call_sites : Z -> Z;                  (* target of the call at a site *)
  effects : list Effect
}.

Definition AcquireMethod (w : World) (pcode_offs : Z) : option MethodInfo :=
  methods w pcode_offs.

Definition log (e : Effect) (w : World) : World :=
  {| HandleInterrupt := HandleInterrupt w; code := code w;
     methods := methods w; pointers := pointers w;
     call_sites := call_sites w; effects := effects w ++ [e] |}.

Definition update (f : Z -> Z) (k v : Z) : Z -> Z :=
  fun x => if x =? k then v else f x.

Definition store_method (key : Z) (m : MethodInfo) (w : World) : World :=
  {| HandleInterrupt := HandleInterrupt w; code := code w;
     methods := fun k => if k =? key then Some m else methods w k;
     pointers := pointers w; call_sites := call_sites w;
     effects := effects w |}.

Definition store_pointer (addrp v : Z) (w : World) : World :=
  log (StoreEntry addrp v)
    {| HandleInterrupt := HandleInterrupt w; code := code w;
       methods := methods w; pointers := update (pointers w) addrp v;
       call_sites := call_sites w; effects := effects w |}.

Definition PatchCallThunk (site entry : Z) (w : World) : World :=
  log (PatchedCall site entry)
    {| HandleInterrupt := HandleInterrupt w; code := code w;
       methods := methods w; pointers := pointers w;
       call_sites := update (call_sites w) site entry;
       effects := effects w |}.

(** [CompilerBase::Compile].  [key] is the [RefPtr<MethodInfo>], [err] the
    value of [*err] on entry; the result carries the value of [*err] on
    return. *)
Definition Compile (w : World) (key : Z) (method : MethodInfo) (err : Z)
  : option CompiledFunction * Z * World :=
  let cc := new_Compiler (code w) (pcode_offset method) in
  let w1 := log (RanCompile (pcode_offset method)) w in
  match emit cc with
  | (None, cc') => (None, error cc', w1)
  | (Some fn, _) =>
      (Some fn, err,
       log (SetCompiledFunction key fn)
           (store_method key (setCompiledFunction fn method) w1))
  end.

(** [CompilerBase::CompileFromThunk]: the status returned and the world
    left. *)
Definition CompileFromThunk (w : World) (pcode_offs addrp site : Z)
  : Z * World :=
  if negb (HandleInterrupt w) then (SP_ERROR_TIMEOUT, w)
  else
    match AcquireMethod w pcode_offs with
    | None => (SP_ERROR_INVALID_ADDRESS, w)
    | Some method =>
        let err := Validate method in
        if negb (err =? SP_ERROR_NONE) then (err, w)
        else
          let finish (fn : CompiledFunction) (w' : World) :=
            (SP_ERROR_NONE,
             PatchCallThunk site (GetEntryAddress fn)
               (store_pointer addrp (GetEntryAddress fn) w')) in
          match jit method with
          | Some fn => finish fn w
          | None =>
              match Compile w pcode_offs method err with
              | (None, err', w') => (err', w')
              | (Some fn, _, w') => finish fn w'
              end
          end
    end.

End Driver.

(** ** A sample backend

    A small x86-flavoured backend, enough to run the driver on concrete
    p-code: [RETN], [JUMP target] (a backward-jump record when the target
    is not ahead), [BOUNDS n] (a compare and a jump to a fresh error path)
    and [SDIV] (a zero check through an error path).  Any other opcode is
    rejected with an error. *)
Module Sample.

Definition OP_RETN : cell_t := 48.
Definition OP_JUMP : cell_t := 51.
Definition OP_SDIV : cell_t := 70.
Definition OP_BOUNDS : cell_t := 121.
Definition SP_ERROR_INVALID_INSTRUCTION : Z := 10.

#[export] Instance x86 : Arch :=
  {| insn_size := fun op =>
       match op with
       | OpBind _ => 0
       | OpCall _ | OpJump _ | OpMovErr _ => 5
       | OpAlignStack => 3
       | OpRaw bytes => Z.of_nat (length bytes)
       end |}.

Definition here (c : Compiler) : Z :=
  match op_cip_ c with Some cip => cip | None => 0 end.

Definition sample_visit (op : cell_t) (cells : list cell_t) (c : Compiler)
  : VisitResult :=
  if op =? OP_RETN then
    {| vr_ok := true; vr_operands := 0; vr_actions := [Emit (DoRaw [195])] |}
  else if op =? OP_JUMP then
    let target := nth 0 cells 0 / sizeof_cell_t in
    {| vr_ok := true; vr_operands := 1;
       vr_actions :=
         Emit (DoJump (jump_map_ target)) ::
         (if target <=? here c
          then [AddBackwardJump (pc (masm c) + 5) (here c)] else []) |}
  else if op =? OP_BOUNDS then
    {| vr_ok := true; vr_operands := 1;
       vr_actions :=
         [Emit (DoRaw [129; 248]);
          Emit (DoJump (ool_label (length (ool_paths_ c))));
          AddOutOfLine (ErrorPath (here c) SP_ERROR_ARRAY_BOUNDS)] |}
  else if op =? OP_SDIV then
    {| vr_ok := true; vr_operands := 0;
       vr_actions :=
         [Emit (DoRaw [133; 201]);
          Emit (DoJump (ool_label (length (ool_paths_ c))));
          AddOutOfLine (ErrorPath (here c) SP_ERROR_DIVIDE_BY_ZERO);
          Emit (DoRaw [247; 249])] |}
  else
    {| vr_ok := false; vr_operands := 0;
       vr_actions := [Emit (DoReportError SP_ERROR_INVALID_INSTRUCTION)] |}.

#[export] Instance backend : Backend :=
  {| OP_PROC := 46;
     OP_ENDPROC := 164;
     emitPrologue := fun _ => [DoRaw [85; 137; 229]];
     visit := sample_visit;
     emitOutOfBoundsErrorPath := fun cip _ _ =>
       [DoAlignStack; DoCall (throw_error_code_ SP_ERROR_ARRAY_BOUNDS);
        DoCipMapping cip];
     emitErrorHandlers := fun c =>
       [DoBind report_error_; DoRaw [80; 232]; DoBind throw_timeout_;
        DoRaw [232]];
     LinkCode := fun m => if pc m =? 0 then 0 else 4096 + pc m |}.

(** [PROC; RETN; ENDPROC] *)
Definition minimal : list cell_t := [46; 48; 164].

(** [PROC; BOUNDS 7; JUMP 4; ENDPROC; PROC; RETN; ENDPROC]: a bounds
    check and a jump back to it, followed by a second function. *)
Definition looping : list cell_t := [46; 121; 7; 51; 4; 164; 46; 48; 164].

(** [PROC; RETN; 999; ENDPROC]: an opcode the backend rejects. *)
Definition rejected : list cell_t := [46; 48; 999; 164].

Definition compiled_minimal : CompiledFunction :=
  {| cf_code := 4103; cf_pcode_offs := 0; cf_edges := []; cf_cipmap := [] |}.

Definition world (c : list cell_t) (ok : bool) (fn : option CompiledFunction)
  : World :=
  {| HandleInterrupt := ok; code := c;
     methods := fun k =>
       if k =? 0 then
         Some {| pcode_offset := 0; Validate := SP_ERROR_NONE; jit := fn |}
       else None;
     pointers := fun _ => 0;
     call_sites := fun _ => 0;
     effects := [] |}.

End Sample.

(** ** Vocabulary of the statements

    The assembler is only ever appended to, so what a phase of the driver
    emitted is the list of operations it appended. *)

Section Vocabulary.
Context {arch : Arch}.

Definition appends (ops : list AsmOp) (m : Assembler) : Assembler :=
  fold_left (fun m op => append op m) ops m.

(** [m'] is [m] after appending operations that all satisfy [P]. *)
Definition emits (P : AsmOp -> bool) (m m' : Assembler) : Prop :=
  exists ops, forallb P ops = true /\ m' = appends ops m.

(** The operations that bind a slot of the error-path table. *)
Definition binds_throw_path (op : AsmOp) : bool :=
  match op with
  | OpBind (throw_error_code_ _) => true
  | _ => false
  end.

Definition no_throw_bind (op : AsmOp) : bool := negb (binds_throw_path op).

(** Some emitted site references label [l]. *)
Definition referenced (l : LabelId) (buf : list AsmOp) : Prop :=
  exists op, In op buf /\ op_target op = Some l.

(** The shared path of error [err] is in the code. *)
Definition throw_path_emitted (err : Z) (buf : list AsmOp) : Prop :=
  In (OpBind (throw_error_code_ err)) buf.

(** Until the shared paths are emitted, the slots of the error-path table
    are unbound, and used exactly when some site references them. *)
Definition throw_slots_pending (m : Assembler) : Prop :=
  forall err,
    bound (labels m (throw_error_code_ err)) = false /\
    ~ throw_path_emitted err (buffer m) /\
    (used (labels m (throw_error_code_ err)) = true <->
     referenced (throw_error_code_ err) (buffer m)).

(** The assembler operations of an action. *)
Definition emit_action_ops (a : EmitAction) : list AsmOp :=
  match a with
  | DoCall l => [OpCall l]
  | DoJump l => [OpJump l]
  | DoBind l => [OpBind (backend_label l)]
  | DoAlignStack => [OpAlignStack]
  | DoRaw bytes => [OpRaw bytes]
  | DoReportError _ | DoCipMapping _ => []
  end.

Definition visit_action_ops (a : VisitAction) : list AsmOp :=
  match a with
  | Emit a => emit_action_ops a
  | AddOutOfLine _ | AddBackwardJump _ _ => []
  end.

(** The operations [block] stand in [buf], next to one another and in
    order. *)
Definition contains (block buf : list AsmOp) : Prop :=
  exists pre post, buf = pre ++ block ++ post.

(** The shared path of an error code, as [emitThrowPathIfNeeded] lays it
    out. *)
Definition throw_path_ops (err : Z) : list AsmOp :=
  [OpBind (throw_error_code_ err); OpMovErr err;
   OpJump (backend_label report_error_)].

Definition throw_path_if_used (m : Assembler) (err : Z) : list AsmOp :=
  if used (labels m (throw_error_code_ err)) then throw_path_ops err else [].

End Vocabulary.

(** The places where a compile can find itself in error: an instruction
    whose visitor returns failure; an instruction after which the error
    field is set, or the error field set when the tail of [emit] reaches
    its last check. *)
Definition visitor_fails {arch : Arch} {backend : Backend} (c : Compiler)
  : Prop :=
  exists v, In v (run_visits c) /\ v_ok v = false.

Definition error_field_set {arch : Arch} {backend : Backend} (c : Compiler)
  : Prop :=
  (exists v, In v (run_visits c) /\ error_ (v_after v) <> SP_ERROR_NONE) \/
  (fst (fst (run_decode_loop c)) <> LoopAbort /\
   error_ (snd (emit_tail (after_decode_loop c))) <> SP_ERROR_NONE).

Definition compile_fails_at {arch : Arch} {backend : Backend} (c : Compiler)
  : Prop :=
  visitor_fails c \/ error_field_set c.

(** The effects that publish an entry address. *)
Definition publishes (e : Effect) : bool :=
  match e with
  | StoreEntry _ _ | PatchedCall _ _ => true
  | _ => false
  end.

(** What a call of the thunk patcher that publishes [entry] does: the
    store of [entry] through [addrp], then the patch of the call site with
    [entry], as its last two effects and its only publishing ones. *)
Definition stores_then_patches (w w' : World) (addrp site entry : Z) : Prop :=
  exists pre,
    effects w' =
      effects w ++ pre ++ [StoreEntry addrp entry; PatchedCall site entry] /\
    existsb publishes pre = false /\
    pointers w' addrp = entry /\
    call_sites w' site = entry.

(** What a call that does not publish leaves: every call site and every
    pointer as it was. *)
Definition publishes_nothing (w w' : World) : Prop :=
  (forall s, call_sites w' s = call_sites w s) /\
  (forall a, pointers w' a = pointers w a) /\
  exists pre, effects w' = effects w ++ pre /\ existsb publishes pre = false.

(** ** More sample inputs

    The sample backend on an allocator that has no memory left, and a
    function with no instruction. *)
Module SampleMore.

Definition no_memory : Backend :=
  {| OP_PROC := 46;
     OP_ENDPROC := 164;
     emitPrologue := fun _ => [DoRaw [85; 137; 229]];
     visit := Sample.sample_visit;
     emitOutOfBoundsErrorPath := fun pcip _ _ =>
       [DoAlignStack; DoCall (throw_error_code_ SP_ERROR_ARRAY_BOUNDS);
        DoCipMapping pcip];
     emitErrorHandlers := fun c =>
       [DoBind report_error_; DoRaw [80; 232]; DoBind throw_timeout_;
        DoRaw [232]];
     LinkCode := fun _ => 0 |}.

(** A backend whose visitor knows [RETN] and turns every other opcode
    down by returning failure, without reporting an error. *)
Definition silent_visit (op : cell_t) (cells : list cell_t) (c : Compiler)
  : VisitResult :=
  if op =? Sample.OP_RETN then
    {| vr_ok := true; vr_operands := 0; vr_actions := [Emit (DoRaw [195])] |}
  else
    {| vr_ok := false; vr_operands := 0; vr_actions := [] |}.

Definition silent : Backend :=
  {| OP_PROC := 46;
     OP_ENDPROC := 164;
     emitPrologue := fun _ => [DoRaw [85; 137; 229]];
     visit := silent_visit;
     emitOutOfBoundsErrorPath := fun pcip _ _ =>
       [DoAlignStack; DoCall (throw_error_code_ SP_ERROR_ARRAY_BOUNDS);
        DoCipMapping pcip];
     emitErrorHandlers := fun c =>
       [DoBind report_error_; DoRaw [80; 232]; DoBind throw_timeout_;
        DoRaw [232]];
     LinkCode := fun m => if pc m =? 0 then 0 else 4096 + pc m |}.

(** [PROC; ENDPROC] *)
Definition empty_function : list cell_t := [46; 164].

(** Deepest first: a helper frame, two scripted frames. *)
Definition scripted_frames : list FrameLayout :=
  [mkFrame Helper 48; mkFrame Scripted 100; mkFrame Scripted 152].

End SampleMore.

(** ** Vocabulary of the layout statements

    What each phase of [emit] appends to the buffer, and the labels a run
    of operations binds. *)

Section Layout.
Context {arch : Arch} {backend : Backend}.

(** The jump-map indices, out-of-line path indices and error codes whose
    labels a run of operations binds, in order. *)
Definition jump_binds (ops : list AsmOp) : list Z :=
  flat_map (fun op => match op with
                      | OpBind (jump_map_ idx) => [idx]
                      | _ => []
                      end) ops.

Definition ool_binds (ops : list AsmOp) : list nat :=
  flat_map (fun op => match op with
                      | OpBind (ool_label i) => [i]
                      | _ => []
                      end) ops.

Definition throw_binds (ops : list AsmOp) : list Z :=
  flat_map (fun op => match op with
                      | OpBind (throw_error_code_ err) => [err]
                      | _ => []
                      end) ops.

(** What one iteration of the decode loop appends: the bind of the
    instruction's label, then what its visitor emits. *)
Definition visit_ops (v : Visit) : list AsmOp :=
  OpBind (jump_map_ (cip (v_reader v))) ::
  flat_map visit_action_ops
    (vr_actions (visit (peekOpcode (v_reader v))
                   (skipn (S (cip_ (v_reader v))) (code_ (v_reader v)))
                   (v_before v))).

(** The label [emitErrorPath] calls. *)
Definition error_path_target (err : Z) : LabelId :=
  if err =? 0 then backend_label report_error_ else throw_error_code_ err.

(** What the body of an out-of-line path appends, after its label. *)
Definition path_ops (path : OutOfLinePath) (c : Compiler) : list AsmOp :=
  match path with
  | ErrorPath _ err => [OpAlignStack; OpCall (error_path_target err)]
  | OutOfBoundsErrorPath pcip bounds =>
      flat_map emit_action_ops (emitOutOfBoundsErrorPath pcip bounds c)
  end.

(** What the out-of-line loop appends from index [i] on. *)
Fixpoint ool_ops (i : nat) (paths : list OutOfLinePath) (c : Compiler)
  : list AsmOp :=
  match paths with
  | [] => []
  | path :: rest =>
      let c1 := set_masm (bind (ool_label i) (masm c)) c in
      (OpBind (ool_label i) :: path_ops path c1) ++
      ool_ops (S i) rest (snd (OutOfLinePath_emit path c1))
  end.

(** What the backward-jump loop appends: one call per record. *)
Definition thunk_ops (jumps : list BackwardJump) : list AsmOp :=
  map (fun _ => OpCall (backend_label throw_timeout_)) jumps.

(** [jumps] are the records [before] with only [timeout_offset] filled
    in. *)
Definition same_branches (before jumps : list BackwardJump) : Prop :=
  map bj_pc jumps = map bj_pc before /\ map bj_cip jumps = map bj_cip before.

(** The operations that do not bind a label owned by the driver. *)
Definition no_driver_bind (op : AsmOp) : bool :=
  match op with
  | OpBind (backend_label _) => true
  | OpBind _ => false
  | _ => true
  end.

(** The shared paths [emit] lays down, given the assembler before the nine
    calls: those of the fixed list whose label is used, in the order of
    the list. *)
Definition used_throw_paths (m : Assembler) : list Z :=
  filter (fun err => used (labels m (throw_error_code_ err))) throw_path_errors.

(** Everything a compile appends, phase after phase: the prologue, the
    instructions of the body, the out-of-line paths, the backward-jump
    thunks, the shared error paths and the error handlers. *)
Definition emit_layout (c : Compiler) : list AsmOp :=
  flat_map emit_action_ops (emitPrologue c) ++
  flat_map visit_ops (run_visits c) ++
  ool_ops 0 (ool_paths_ (after_decode_loop c)) (after_decode_loop c) ++
  thunk_ops (backward_jumps_ (after_decode_loop c)) ++
  flat_map (throw_path_if_used (masm (before_throw_paths c))) throw_path_errors ++
  flat_map emit_action_ops (emitErrorHandlers (after_throw_paths c)).

End Layout.

(** * Properties *)

(** ** Entry-frame discovery *)

Lemma last_cons_default {A} (l : list A) (x d : A) :
  last (x :: l) d = last l x.
Proof.
  revert x d; induction l as [|y l IH]; intros x d; [reflexivity|].
  change (last (x :: y :: l) d) with (last (y :: l) d).
  now rewrite !IH.
Qed.

Lemma find_entry_fp_loop_stops (pre post : list FrameLayout) (e : FrameLayout) :
  Forall (fun f => frame_type f <> Entry) pre ->
  frame_type e = Entry ->
  forall fp, find_entry_fp_loop (pre ++ e :: post) fp = last (map prev_fp pre) fp.
Proof.
  intros Hpre He.
  induction Hpre as [|f pre Hf Hpre IH]; intros fp.
  - simpl. now rewrite He.
  - change ((f :: pre) ++ e :: post) with (f :: (pre ++ e :: post)).
    change (map prev_fp (f :: pre)) with (prev_fp f :: map prev_fp pre).
    rewrite last_cons_default. cbn [find_entry_fp_loop].
    destruct (frame_type f); try congruence; apply IH.
Qed.

Lemma last_snoc {A} (l : list A) (x d : A) : last (l ++ [x]) d = x.
Proof.
  revert d. induction l as [|y l IH]; intros d; [reflexivity|].
  change ((y :: l) ++ [x]) with (y :: (l ++ [x])).
  rewrite last_cons_default. apply IH.
Qed.

(** C1 (as amended): when the iterator reaches a frame of type [Entry],
    the value [find_entry_fp] returns is the [prev_fp] of the frame walked
    just before that frame, the innermost frame whose caller is the entry
    frame: whatever it returns is that field, and it does return it
    whenever that field is not null.  The [prev_fp] of the [Entry] frame
    itself is never read. *)
Theorem find_entry_fp_prev_fp_of_frame_below_entry
  (pre post : list FrameLayout) (e : FrameLayout) :
  Forall (fun f => frame_type f <> Entry) pre ->
  frame_type e = Entry ->
  (forall fp, find_entry_fp (pre ++ e :: post) = Some fp ->
     exists pre' f, pre = pre' ++ [f] /\ fp = prev_fp f) /\
  (forall pre' f, pre = pre' ++ [f] -> prev_fp f <> 0 ->
     find_entry_fp (pre ++ e :: post) = Some (prev_fp f)).
Proof.
  intros Hpre He. unfold find_entry_fp.
  rewrite (find_entry_fp_loop_stops pre post e Hpre He 0). split.
  - intros fp. destruct (last (map prev_fp pre) 0 =? 0) eqn:E; [discriminate|].
    intros [= <-]. destruct (exists_last (l := pre)) as (pre' & f & ->).
    + intros ->. now rewrite Z.eqb_refl in E.
    + exists pre', f. split; [reflexivity|].
      rewrite map_app. cbn [map]. now rewrite last_snoc.
  - intros pre' f -> Hf. rewrite map_app. cbn [map]. rewrite last_snoc.
    apply Z.eqb_neq in Hf. now rewrite Hf.
Qed.

Lemma find_entry_fp_prev_fp_of_frame_below_entry_witness :
  find_entry_fp
    (([mkFrame Helper 48] ++ [mkFrame Scripted 100]) ++
     mkFrame Entry 200 :: [mkFrame Scripted 300]) = Some 100.
Proof.
  apply (proj2 (find_entry_fp_prev_fp_of_frame_below_entry
                  ([mkFrame Helper 48] ++ [mkFrame Scripted 100])
                  [mkFrame Scripted 300] (mkFrame Entry 200)
                  ltac:(repeat constructor; simpl; discriminate) eq_refl)
               [mkFrame Helper 48] (mkFrame Scripted 100) eq_refl).
  discriminate.
Defined.

(** C1 as stated fails: with a scripted frame below the entry frame the
    walk returns the scripted frame's [prev_fp], not the entry frame's. *)
Lemma find_entry_fp_is_not_prev_fp_of_entry :
  let e := mkFrame Entry 200 in
  let iter := [mkFrame Scripted 100] ++ e :: [] in
  frame_type e = Entry /\
  find_entry_fp iter = Some 100 /\
  find_entry_fp iter <> Some (prev_fp e).
Proof.
  simpl. repeat split. unfold find_entry_fp. simpl. discriminate.
Qed.

(** ** The thunk patcher *)

Section Thunk.
Context {arch : Arch} {backend : Backend}.

(** C2: when [HandleInterrupt] returns false, [CompileFromThunk] returns
    the timeout error and leaves the world as it found it: the compile
    driver is not run, no method is touched, nothing is stored through
    [addrp] and no call site is patched. *)
Theorem CompileFromThunk_preempted (w : World) (pcode_offs addrp site : Z) :
  HandleInterrupt w = false ->
  let '(status, w') := CompileFromThunk w pcode_offs addrp site in
  status = SP_ERROR_TIMEOUT /\
  w' = w /\
  effects w' = effects w /\
  methods w' = methods w /\
  pointers w' addrp = pointers w addrp /\
  call_sites w' site = call_sites w site.
Proof.
  intros H. unfold CompileFromThunk. rewrite H. simpl. auto 6.
Qed.

(** C7: for a method that already has a compiled function (and validates),
    two calls in a row both succeed and store the same entry address; the
    driver is not run by either; each call patches once, and the second
    patch writes the entry the first one wrote, so that on the same site
    it changes nothing. *)
Theorem CompileFromThunk_twice
  (w : World) (pcode_offs addrp site addrp' site' : Z)
  (method : MethodInfo) (fn : CompiledFunction) :
  HandleInterrupt w = true ->
  AcquireMethod w pcode_offs = Some method ->
  Validate method = SP_ERROR_NONE ->
  jit method = Some fn ->
  let entry := GetEntryAddress fn in
  let '(status1, w1) := CompileFromThunk w pcode_offs addrp site in
  let '(status2, w2) := CompileFromThunk w1 pcode_offs addrp' site' in
  status1 = SP_ERROR_NONE /\ status2 = SP_ERROR_NONE /\
  pointers w1 addrp = entry /\ pointers w2 addrp' = entry /\
  effects w1 = effects w ++ [StoreEntry addrp entry; PatchedCall site entry] /\
  effects w2 = effects w1 ++ [StoreEntry addrp' entry; PatchedCall site' entry] /\
  call_sites w1 site = entry /\
  (forall s, call_sites w2 s = if s =? site' then entry else call_sites w1 s) /\
  (site' = site -> forall s, call_sites w2 s = call_sites w1 s).
Proof.
  intros Hi Ha Hv Hj entry.
  unfold CompileFromThunk, AcquireMethod in *.
  rewrite Hi, Ha, Hv, Hj. simpl.
  rewrite Hi, Ha, Hv, Hj. simpl.
  unfold update. rewrite !Z.eqb_refl.
  subst entry.
  repeat match goal with |- _ /\ _ => split end; try reflexivity.
  - now rewrite <- app_assoc.
  - now rewrite <- (app_assoc _ [_] [_]).
  - intros -> s. now destruct (s =? site).
Qed.

End Thunk.

(** ** The assembler only grows *)

Section AssemblerFacts.
Context {arch : Arch}.

Lemma appends_app (ops ops' : list AsmOp) (m : Assembler) :
  appends (ops ++ ops') m = appends ops' (appends ops m).
Proof. apply fold_left_app. Qed.

Lemma buffer_appends (ops : list AsmOp) (m : Assembler) :
  buffer (appends ops m) = buffer m ++ ops.
Proof.
  revert m; induction ops as [|op ops IH]; intros m; simpl.
  - now rewrite app_nil_r.
  - rewrite IH. simpl. now rewrite <- app_assoc.
Qed.

Lemma LabelId_eqb_eq (a b : LabelId) : LabelId_eqb a b = true <-> a = b.
Proof.
  destruct a as [i|e|i|l], b as [j|f|j|m]; simpl;
    try (split; [discriminate | congruence]).
  - rewrite Z.eqb_eq. split; congruence.
  - rewrite Z.eqb_eq. split; congruence.
  - rewrite Nat.eqb_eq. split; congruence.
  - destruct l as [| |n], m as [| |k]; simpl;
      try (split; [discriminate | congruence]); try tauto.
    rewrite Nat.eqb_eq. split; congruence.
Qed.

Lemma LabelId_eqb_refl (a : LabelId) : LabelId_eqb a a = true.
Proof. now apply LabelId_eqb_eq. Qed.

Lemma LabelId_eqb_neq (a b : LabelId) : a <> b -> LabelId_eqb a b = false.
Proof.
  intros H. destruct (LabelId_eqb a b) eqn:E; [|reflexivity].
  now apply LabelId_eqb_eq in E.
Qed.

Lemma set_label_same (t : LabelTable) (l : LabelId) (v : Label) :
  set_label t l v l = v.
Proof. unfold set_label. now rewrite LabelId_eqb_refl. Qed.

Lemma set_label_other (t : LabelTable) (l k : LabelId) (v : Label) :
  k <> l -> set_label t l v k = t k.
Proof. intros H. unfold set_label. now rewrite LabelId_eqb_neq. Qed.

Lemma add_pending_other (t : LabelTable) (l k : LabelId) (site : Z) :
  k <> l -> add_pending t l site k = t k.
Proof.
  intros H. unfold add_pending.
  destruct (t l); [now apply set_label_other | reflexivity].
Qed.

Lemma add_pending_used (t : LabelTable) (l : LabelId) (site : Z) :
  used (add_pending t l site l) = true.
Proof.
  unfold add_pending. destruct (t l) eqn:E.
  - now rewrite set_label_same.
  - now rewrite E.
Qed.

Lemma add_pending_bound (t : LabelTable) (l k : LabelId) (site : Z) :
  bound (add_pending t l site k) = bound (t k).
Proof.
  unfold add_pending. destruct (t l) eqn:E; [|reflexivity].
  unfold set_label. destruct (LabelId_eqb k l) eqn:Ek; [|reflexivity].
  apply LabelId_eqb_eq in Ek. subst k. now rewrite E.
Qed.

(** A bound label stays bound whatever is appended. *)
Lemma append_keeps_bound (op : AsmOp) (m : Assembler) (l : LabelId) :
  bound (labels m l) = true -> bound (labels (append op m) l) = true.
Proof.
  intros H. destruct op; simpl; auto.
  - unfold set_label. now destruct (LabelId_eqb l l0).
  - now rewrite add_pending_bound.
  - now rewrite add_pending_bound.
Qed.

Lemma appends_keeps_bound (ops : list AsmOp) (m : Assembler) (l : LabelId) :
  bound (labels m l) = true -> bound (labels (appends ops m) l) = true.
Proof.
  revert m; induction ops as [|op ops IH]; intros m H; simpl; auto.
  apply IH. now apply append_keeps_bound.
Qed.

Lemma bind_binds (l : LabelId) (m : Assembler) :
  labels (bind l m) l = Bound (pc m).
Proof. simpl. apply set_label_same. Qed.

(** A label no appended operation binds or targets keeps its state. *)
Lemma append_label_untouched (op : AsmOp) (m : Assembler) (l : LabelId) :
  op <> OpBind l -> op_target op <> Some l ->
  labels (append op m) l = labels m l.
Proof.
  intros Hb Ht. destruct op; simpl in *; auto.
  - apply set_label_other. congruence.
  - apply add_pending_other. congruence.
  - apply add_pending_other. congruence.
Qed.

End AssemblerFacts.

Section EmitsFacts.
Context {arch : Arch}.

Lemma emits_refl (P : AsmOp -> bool) (m : Assembler) : emits P m m.
Proof. now exists []. Qed.

Lemma emits_trans (P : AsmOp -> bool) (m1 m2 m3 : Assembler) :
  emits P m1 m2 -> emits P m2 m3 -> emits P m1 m3.
Proof.
  intros (ops & H & ->) (ops' & H' & ->). exists (ops ++ ops'). split.
  - rewrite forallb_app, H, H'. reflexivity.
  - now rewrite appends_app.
Qed.

Lemma emits_append (P : AsmOp -> bool) (op : AsmOp) (m : Assembler) :
  P op = true -> emits P m (append op m).
Proof. intros H. exists [op]. simpl. now rewrite H. Qed.

Lemma emits_buffer (P : AsmOp -> bool) (m m' : Assembler) :
  emits P m m' ->
  exists ops, forallb P ops = true /\ buffer m' = buffer m ++ ops.
Proof.
  intros (ops & H & ->). exists ops. split; [exact H | apply buffer_appends].
Qed.

Lemma emits_keeps_bound (P : AsmOp -> bool) (m m' : Assembler) (l : LabelId) :
  emits P m m' -> bound (labels m l) = true -> bound (labels m' l) = true.
Proof. intros (ops & _ & ->). apply appends_keeps_bound. Qed.

Lemma referenced_snoc (l : LabelId) (buf : list AsmOp) (op : AsmOp) :
  referenced l (buf ++ [op]) <-> referenced l buf \/ op_target op = Some l.
Proof.
  unfold referenced. split.
  - intros (op' & Hin & Ht). apply in_app_or in Hin as [Hin|[<-|[]]].
    + left. now exists op'.
    + now right.
  - intros [(op' & Hin & Ht)|Ht].
    + exists op'. split; [apply in_or_app; now left | exact Ht].
    + exists op. split; [apply in_or_app; right; now left | exact Ht].
Qed.

Lemma referenced_app (l : LabelId) (buf buf' : list AsmOp) :
  referenced l (buf ++ buf') <-> referenced l buf \/ referenced l buf'.
Proof.
  unfold referenced. split.
  - intros (op & Hin & Ht). apply in_app_or in Hin as [Hin|Hin];
      [left | right]; now exists op.
  - intros [(op & Hin & Ht)|(op & Hin & Ht)]; exists op;
      (split; [apply in_or_app; auto | exact Ht]).
Qed.

Lemma target_dec (op : AsmOp) (l : LabelId) :
  {op_target op = Some l} + {op_target op <> Some l}.
Proof.
  destruct (op_target op) as [k|]; [|right; discriminate].
  destruct (LabelId_eqb k l) eqn:E.
  - left. apply LabelId_eqb_eq in E. now subst.
  - right. intros [= ->]. now rewrite LabelId_eqb_refl in E.
Qed.

Lemma used_append_target (op : AsmOp) (m : Assembler) (l : LabelId) :
  op_target op = Some l -> used (labels (append op m) l) = true.
Proof.
  intros H. destruct op; simpl in H; try discriminate; injection H as ->;
    simpl; apply add_pending_used.
Qed.

Lemma throw_slots_pending_new : throw_slots_pending new_masm.
Proof.
  intros err. simpl. repeat split; try tauto; try discriminate.
  intros (op & [] & _).
Qed.

Lemma throw_slots_pending_append (op : AsmOp) (m : Assembler) :
  no_throw_bind op = true ->
  throw_slots_pending m -> throw_slots_pending (append op m).
Proof.
  intros Hop Hm err. destruct (Hm err) as (Hb & Hn & Hu).
  assert (Hne : op <> OpBind (throw_error_code_ err))
    by (intros ->; discriminate).
  split; [|split].
  - destruct (bound (labels (append op m) (throw_error_code_ err))) eqn:E;
      [|reflexivity].
    destruct op; simpl in E; try congruence.
    + rewrite set_label_other in E; congruence.
    + rewrite add_pending_bound in E. congruence.
    + rewrite add_pending_bound in E. congruence.
  - unfold throw_path_emitted. simpl. rewrite in_app_iff. simpl.
    intros [H|[H|[]]]; [now apply Hn | now apply Hne].
  - change (buffer (append op m)) with (buffer m ++ [op]).
    rewrite referenced_snoc.
    destruct (target_dec op (throw_error_code_ err)) as [Ht|Ht].
    + rewrite used_append_target by exact Ht. tauto.
    + rewrite append_label_untouched by assumption. tauto.
Qed.

Lemma throw_slots_pending_emits (m m' : Assembler) :
  emits no_throw_bind m m' ->
  throw_slots_pending m -> throw_slots_pending m'.
Proof.
  intros (ops & H & ->). revert m H.
  induction ops as [|op ops IH]; intros m H Hm; simpl; auto.
  simpl in H. apply andb_prop in H as [H1 H2].
  apply IH; auto. now apply throw_slots_pending_append.
Qed.

End EmitsFacts.

(** ** What each phase of [emit] appends *)

Section PhaseFacts.
Context {arch : Arch} {backend : Backend}.

Lemma masm_run_emit_action (a : EmitAction) (c : Compiler) :
  masm (run_emit_action a c) = appends (emit_action_ops a) (masm c).
Proof. destruct a; reflexivity. Qed.

Lemma masm_run_emit (acts : list EmitAction) (c : Compiler) :
  masm (run_emit acts c) = appends (flat_map emit_action_ops acts) (masm c).
Proof.
  unfold run_emit. revert c.
  induction acts as [|a acts IH]; intros c; simpl; [reflexivity|].
  rewrite IH, masm_run_emit_action. unfold appends.
  now rewrite fold_left_app.
Qed.

Lemma masm_run_visit (acts : list VisitAction) (c : Compiler) :
  masm (run_visit acts c) = appends (flat_map visit_action_ops acts) (masm c).
Proof.
  unfold run_visit. revert c.
  induction acts as [|a acts IH]; intros c; simpl; [reflexivity|].
  rewrite IH. unfold appends. rewrite fold_left_app. f_equal.
  destruct a; [apply masm_run_emit_action | reflexivity | reflexivity].
Qed.

Lemma emit_action_ops_no_throw_bind (acts : list EmitAction) :
  forallb no_throw_bind (flat_map emit_action_ops acts) = true.
Proof.
  induction acts as [|a acts IH]; simpl; [reflexivity|].
  rewrite forallb_app, IH, andb_true_r. now destruct a.
Qed.

Lemma visit_action_ops_no_throw_bind (acts : list VisitAction) :
  forallb no_throw_bind (flat_map visit_action_ops acts) = true.
Proof.
  induction acts as [|a acts IH]; simpl; [reflexivity|].
  rewrite forallb_app, IH, andb_true_r.
  destruct a as [a| |]; try reflexivity. now destruct a.
Qed.

Lemma run_emit_emits (acts : list EmitAction) (c : Compiler) :
  emits no_throw_bind (masm c) (masm (run_emit acts c)).
Proof.
  exists (flat_map emit_action_ops acts). split.
  - apply emit_action_ops_no_throw_bind.
  - apply masm_run_emit.
Qed.

Lemma run_visit_emits (acts : list VisitAction) (c : Compiler) :
  emits no_throw_bind (masm c) (masm (run_visit acts c)).
Proof.
  exists (flat_map visit_action_ops acts). split.
  - apply visit_action_ops_no_throw_bind.
  - apply masm_run_visit.
Qed.

(** Emitters leave the registries alone. *)
Lemma run_emit_registries (acts : list EmitAction) (c : Compiler) :
  ool_paths_ (run_emit acts c) = ool_paths_ c /\
  backward_jumps_ (run_emit acts c) = backward_jumps_ c /\
  rt_code (run_emit acts c) = rt_code c /\
  pcode_start_ (run_emit acts c) = pcode_start_ c.
Proof.
  unfold run_emit. revert c.
  induction acts as [|a acts IH]; intros c; simpl; [auto|].
  destruct (IH (run_emit_action a c)) as (H1 & H2 & H3 & H4).
  rewrite H1, H2, H3, H4. now destruct a.
Qed.

Lemma before_visit_masm (r : PcodeReader) (c : Compiler) :
  masm (before_visit r c) = bind (jump_map_ (cip r)) (masm c).
Proof. reflexivity. Qed.

Lemma before_visit_emits (r : PcodeReader) (c : Compiler) :
  emits no_throw_bind (masm c) (masm (before_visit r c)).
Proof. rewrite before_visit_masm. now apply emits_append. Qed.

Lemma visitNext_emits (r r' : PcodeReader) (c c' : Compiler) (ok : bool) :
  visitNext r c = (ok, r', c') -> emits no_throw_bind (masm c) (masm c').
Proof. unfold visitNext. intros [= _ _ <-]. apply run_visit_emits. Qed.

Lemma decode_loop_emits (fuel : nat) (r r' : PcodeReader) (c c' : Compiler)
      (exit : LoopExit) :
  decode_loop fuel r c = (exit, r', c') ->
  emits no_throw_bind (masm c) (masm c').
Proof.
  revert r c. induction fuel as [|fuel IH]; intros r c; cbn [decode_loop].
  - intros [= _ _ <-]. apply emits_refl.
  - destruct (more r); [|intros [= _ _ <-]; apply emits_refl].
    destruct (is_boundary (peekOpcode r));
      [intros [= _ _ <-]; apply emits_refl|].
    destruct (visitNext r (before_visit r c)) as [[ok r1] c1] eqn:Ev.
    apply visitNext_emits in Ev.
    assert (H1 : emits no_throw_bind (masm c) (masm c1))
      by (eapply emits_trans; [apply before_visit_emits | exact Ev]).
    destruct (negb ok || negb (error_ c1 =? 0)).
    + now intros [= _ _ <-].
    + intros H. eapply emits_trans; [exact H1 | eapply IH; exact H].
Qed.

Lemma emitErrorPath_emits (cip err : Z) (c : Compiler) :
  emits no_throw_bind (masm c) (masm (emitErrorPath cip err c)).
Proof.
  unfold emitErrorPath. destruct (err =? 0); simpl;
    (eapply emits_trans; [apply emits_append | apply emits_append]);
    reflexivity.
Qed.

Lemma OutOfLinePath_emit_emits (path : OutOfLinePath) (c : Compiler) :
  emits no_throw_bind (masm c) (masm (snd (OutOfLinePath_emit path c))).
Proof.
  destruct path; cbn [OutOfLinePath_emit snd];
    [apply emitErrorPath_emits | apply run_emit_emits].
Qed.

Lemma emit_ool_paths_emits (paths : list OutOfLinePath) (i : nat) (c : Compiler) :
  emits no_throw_bind (masm c) (masm (snd (emit_ool_paths i paths c))).
Proof.
  revert i c. induction paths as [|path paths IH]; intros i c;
    cbn [emit_ool_paths].
  - apply emits_refl.
  - set (c1 := set_masm (bind (ool_label i) (masm c)) c).
    assert (H1 : emits no_throw_bind (masm c) (masm c1))
      by (now apply emits_append).
    pose proof (OutOfLinePath_emit_emits path c1) as H2.
    destruct (OutOfLinePath_emit path c1) as [ok c2]. simpl in H2.
    assert (H3 : emits no_throw_bind (masm c) (masm c2))
      by (eapply emits_trans; eassumption).
    destruct (negb ok); simpl; [exact H3|].
    eapply emits_trans; [exact H3 | apply IH].
Qed.

Lemma emit_timeout_thunks_emits (jumps : list BackwardJump) (c : Compiler) :
  emits no_throw_bind (masm c) (masm (snd (emit_timeout_thunks jumps c))).
Proof.
  revert c. induction jumps as [|jump jumps IH]; intros c; simpl.
  - apply emits_refl.
  - match goal with
    | |- context [emit_timeout_thunks jumps ?c2] =>
        pose proof (IH c2) as H; destruct (emit_timeout_thunks jumps c2)
    end.
    simpl in *. eapply emits_trans; [|exact H].
    now apply emits_append.
Qed.

Lemma emit_backward_jump_thunks_emits (c : Compiler) :
  emits no_throw_bind (masm c) (masm (emit_backward_jump_thunks c)).
Proof.
  unfold emit_backward_jump_thunks.
  pose proof (emit_timeout_thunks_emits (backward_jumps_ c) c) as H.
  destruct (emit_timeout_thunks (backward_jumps_ c) c). exact H.
Qed.

Lemma run_decode_loop_emits (c : Compiler) :
  emits no_throw_bind (masm c) (masm (after_decode_loop c)).
Proof.
  unfold after_decode_loop, run_decode_loop.
  destruct (decode_loop _ _ _) as [[exit r'] c'] eqn:E. simpl.
  eapply emits_trans; [apply run_emit_emits | eapply decode_loop_emits, E].
Qed.

Lemma before_throw_paths_emits (c : Compiler) :
  emits no_throw_bind (masm c) (masm (before_throw_paths c)).
Proof.
  unfold before_throw_paths.
  eapply emits_trans; [apply run_decode_loop_emits|].
  eapply emits_trans; [apply emit_ool_paths_emits|].
  apply emit_backward_jump_thunks_emits.
Qed.

End PhaseFacts.

(** ** The shared error paths *)

Section ThrowPaths.
Context {arch : Arch} {backend : Backend}.

Lemma emitThrowPathIfNeeded_masm (err : Z) (c : Compiler) :
  masm (emitThrowPathIfNeeded err c) =
  appends (throw_path_if_used (masm c) err) (masm c).
Proof.
  unfold emitThrowPathIfNeeded, throw_path_if_used.
  now destruct (used (labels (masm c) (throw_error_code_ err))).
Qed.

Lemma throw_path_ops_other_slot (err e : Z) (m : Assembler) :
  e <> err ->
  labels (appends (throw_path_ops err) m) (throw_error_code_ e) =
  labels m (throw_error_code_ e).
Proof.
  intros H. unfold throw_path_ops, appends. cbn [fold_left].
  rewrite !append_label_untouched; try reflexivity;
    simpl; congruence.
Qed.

Lemma throw_path_if_used_other_slot (err e : Z) (m : Assembler) :
  e <> err ->
  labels (appends (throw_path_if_used m err) m) (throw_error_code_ e) =
  labels m (throw_error_code_ e).
Proof.
  intros H. unfold throw_path_if_used.
  destruct (used _); [now apply throw_path_ops_other_slot | reflexivity].
Qed.

Lemma emit_throw_paths_masm (errs : list Z) (c : Compiler) :
  NoDup errs ->
  masm (emit_throw_paths errs c) =
  appends (flat_map (throw_path_if_used (masm c)) errs) (masm c).
Proof.
  unfold emit_throw_paths. intros Hnd. revert c.
  induction Hnd as [|err errs Hnin Hnd IH]; intros c; [reflexivity|].
  cbn [fold_left flat_map]. rewrite IH, appends_app.
  rewrite emitThrowPathIfNeeded_masm. f_equal.
  rewrite !flat_map_concat_map. f_equal. apply map_ext_in. intros e He.
  unfold throw_path_if_used at 1 3.
  rewrite throw_path_if_used_other_slot; [reflexivity|].
  intros ->. contradiction.
Qed.

Lemma throw_path_errors_NoDup : NoDup throw_path_errors.
Proof.
  unfold throw_path_errors.
  repeat (constructor; [simpl; intros H; repeat destruct H as [H|H];
                        try discriminate; contradiction|]).
  constructor.
Qed.

Lemma in_throw_paths (m : Assembler) (errs : list Z) (err : Z) :
  In (OpBind (throw_error_code_ err)) (flat_map (throw_path_if_used m) errs) <->
  In err errs /\ used (labels m (throw_error_code_ err)) = true.
Proof.
  rewrite in_flat_map. unfold throw_path_if_used. split.
  - intros (e & He & Hin). destruct (used (labels m (throw_error_code_ e))) eqn:Eu;
      [|contradiction].
    simpl in Hin. destruct Hin as [[= ->]|[[=]|[[=]|[]]]]. auto.
  - intros (He & Hu). exists err. split; [exact He|]. rewrite Hu. now left.
Qed.

(** The compiler of a new compile reaches the shared paths with every
    slot of the error-path table still pending. *)
Lemma before_throw_paths_pending (code : list cell_t) (pcode_offs : Z) :
  throw_slots_pending (masm (before_throw_paths (new_Compiler code pcode_offs))).
Proof.
  eapply throw_slots_pending_emits; [apply before_throw_paths_emits|].
  apply throw_slots_pending_new.
Qed.

(** The out-of-line loop never takes its [return nullptr]. *)
Lemma emit_ool_paths_ok (paths : list OutOfLinePath) (i : nat) (c : Compiler) :
  fst (emit_ool_paths i paths c) = true.
Proof.
  revert i c. induction paths as [|path paths IH]; intros i c;
    cbn [emit_ool_paths]; [reflexivity|].
  destruct path; cbn [OutOfLinePath_emit negb]; apply IH.
Qed.

Lemma emit_tail_eq (c : Compiler) :
  emit_tail c =
  (true,
   run_emit
     (emitErrorHandlers
        (emit_throw_paths throw_path_errors
           (emit_backward_jump_thunks (snd (emit_ool_paths 0 (ool_paths_ c) c)))))
     (emit_throw_paths throw_path_errors
        (emit_backward_jump_thunks (snd (emit_ool_paths 0 (ool_paths_ c) c))))).
Proof.
  unfold emit_tail.
  pose proof (emit_ool_paths_ok (ool_paths_ c) 0 c) as H.
  destruct (emit_ool_paths 0 (ool_paths_ c) c) as [ok c1].
  cbn [fst snd] in *. subst ok. reflexivity.
Qed.

End ThrowPaths.

(** ** [emit] as a whole *)

Section EmitFacts.
Context {arch : Arch} {backend : Backend}.

Lemma emit_tail_after_throw_paths (c : Compiler) :
  emit_tail (after_decode_loop c) =
  (true, run_emit (emitErrorHandlers (after_throw_paths c)) (after_throw_paths c)).
Proof.
  rewrite emit_tail_eq. unfold after_throw_paths, before_throw_paths.
  reflexivity.
Qed.

(** What a successful [emit] went through. *)
Lemma emit_Some (c c' : Compiler) (fn : CompiledFunction) :
  emit c = (Some fn, c') ->
  fst (fst (run_decode_loop c)) <> LoopAbort /\
  c' = run_emit (emitErrorHandlers (after_throw_paths c)) (after_throw_paths c) /\
  error_ c' = SP_ERROR_NONE /\
  LinkCode (masm c') <> 0 /\
  fn = {| cf_code := LinkCode (masm c');
          cf_pcode_offs := pcode_start_ c';
          cf_edges := map loop_edge (backward_jumps_ c');
          cf_cipmap := cip_map_ c' |}.
Proof.
  unfold emit. pose proof (emit_tail_after_throw_paths c) as Ht.
  unfold after_decode_loop in Ht.
  destruct (run_decode_loop c) as [[exit r] c1]. cbn [fst snd] in *.
  rewrite Ht. cbn [negb]. unfold emit_link.
  set (c2 := run_emit _ _).
  destruct exit; try discriminate;
    (destruct (error_ c2 =? 0) eqn:Ee; cbn [negb]; [|discriminate];
     destruct (LinkCode (masm c2) =? 0) eqn:El; [discriminate|];
     intros [= <- <-]; apply Z.eqb_eq in Ee; apply Z.eqb_neq in El;
     repeat split; auto; discriminate).
Qed.

Lemma forallb_no_throw_bind_not_in (ops : list AsmOp) (err : Z) :
  forallb no_throw_bind ops = true ->
  ~ In (OpBind (throw_error_code_ err)) ops.
Proof.
  intros H Hin. rewrite forallb_forall in H. now apply H in Hin.
Qed.

Lemma emit_throw_paths_emitted (c : Compiler) (err : Z) :
  In err throw_path_errors ->
  ~ throw_path_emitted err (buffer (masm c)) ->
  throw_path_emitted err (buffer (masm (emit_throw_paths throw_path_errors c)))
  <-> used (labels (masm c) (throw_error_code_ err)) = true.
Proof.
  intros Hin Hn. unfold throw_path_emitted in *.
  rewrite emit_throw_paths_masm by apply throw_path_errors_NoDup.
  rewrite buffer_appends, in_app_iff, in_throw_paths.
  split; [intros [H|[_ H]]; [contradiction | exact H] | intros H; now right].
Qed.

Lemma run_emit_throw_path_emitted (acts : list EmitAction) (c : Compiler) (err : Z) :
  throw_path_emitted err (buffer (masm (run_emit acts c)))
  <-> throw_path_emitted err (buffer (masm c)).
Proof.
  unfold throw_path_emitted.
  rewrite masm_run_emit, buffer_appends, in_app_iff.
  pose proof (forallb_no_throw_bind_not_in _ err
                (emit_action_ops_no_throw_bind acts)) as Hh.
  split; [intros [H|H]; [exact H | contradiction] | intros H; now left].
Qed.

Lemma after_throw_paths_eq (c : Compiler) :
  after_throw_paths c = emit_throw_paths throw_path_errors (before_throw_paths c).
Proof. reflexivity. Qed.

Lemma contains_In (block buf : list AsmOp) (op : AsmOp) :
  contains block buf -> In op block -> In op buf.
Proof.
  intros (pre & post & ->) Hin.
  apply in_or_app. right. apply in_or_app. now left.
Qed.

Lemma contains_app (block buf before after : list AsmOp) :
  contains block buf -> contains block (before ++ buf ++ after).
Proof.
  intros (pre & post & ->). exists (before ++ pre), (post ++ after).
  now rewrite <- !app_assoc.
Qed.

Lemma contains_app_r (block buf before : list AsmOp) :
  contains block buf -> contains block (before ++ buf).
Proof.
  intros H. apply (contains_app _ _ before []) in H.
  now rewrite app_nil_r in H.
Qed.

Lemma contains_app_l (block buf after : list AsmOp) :
  contains block buf -> contains block (buf ++ after).
Proof. intros H. exact (contains_app _ _ [] after H). Qed.

(** The used codes of a list have their whole path in what the calls
    append. *)
Lemma contains_throw_path (m : Assembler) (errs : list Z) (err : Z) :
  In err errs ->
  used (labels m (throw_error_code_ err)) = true ->
  contains (throw_path_ops err) (flat_map (throw_path_if_used m) errs).
Proof.
  intros Hin Hu. apply in_split in Hin as (l1 & l2 & ->).
  rewrite flat_map_app. cbn [flat_map].
  apply contains_app_r, contains_app_l.
  unfold throw_path_if_used. rewrite Hu.
  exists [], []. now rewrite app_nil_r.
Qed.

(** The whole shared path of a code of the list is in the code after the
    nine calls exactly when its label was used before them. *)
Lemma emit_throw_paths_contains (c : Compiler) (err : Z) :
  In err throw_path_errors ->
  ~ throw_path_emitted err (buffer (masm c)) ->
  contains (throw_path_ops err)
           (buffer (masm (emit_throw_paths throw_path_errors c)))
  <-> used (labels (masm c) (throw_error_code_ err)) = true.
Proof.
  intros Hin Hn. split.
  - intros Hc. apply (proj1 (emit_throw_paths_emitted c err Hin Hn)).
    unfold throw_path_emitted.
    apply (contains_In (throw_path_ops err) _ _ Hc). now left.
  - intros Hu.
    rewrite emit_throw_paths_masm by apply throw_path_errors_NoDup.
    rewrite buffer_appends. apply contains_app_r.
    now apply contains_throw_path.
Qed.

Lemma run_emit_contains (acts : list EmitAction) (c : Compiler)
      (block : list AsmOp) :
  contains block (buffer (masm c)) ->
  contains block (buffer (masm (run_emit acts c))).
Proof.
  intros H. rewrite masm_run_emit, buffer_appends. now apply contains_app_l.
Qed.

(** C4: for every error code of the fixed list, the shared path of that
    code (the bind of its label, the move of the code into the error
    register, the jump to the report-error routine) is laid down by the
    nine [emitThrowPathIfNeeded] calls, and is in the code of a successful
    compile, if and only if the label of that code is used when the calls
    are made, that is if and only if some site emitted before them
    references it. *)
Theorem throw_path_emitted_iff_referenced
  (code : list cell_t) (pcode_offs err : Z) :
  In err throw_path_errors ->
  (used (labels (masm (before_throw_paths (new_Compiler code pcode_offs)))
                (throw_error_code_ err)) = true
   <-> referenced (throw_error_code_ err)
         (buffer (masm (before_throw_paths (new_Compiler code pcode_offs))))) /\
  (throw_path_emitted err
     (buffer (masm (after_throw_paths (new_Compiler code pcode_offs))))
   <-> referenced (throw_error_code_ err)
         (buffer (masm (before_throw_paths (new_Compiler code pcode_offs))))) /\
  (contains [OpBind (throw_error_code_ err); OpMovErr err;
             OpJump (backend_label report_error_)]
     (buffer (masm (after_throw_paths (new_Compiler code pcode_offs))))
   <-> referenced (throw_error_code_ err)
         (buffer (masm (before_throw_paths (new_Compiler code pcode_offs))))) /\
  (~ contains [OpBind (throw_error_code_ err); OpMovErr err;
               OpJump (backend_label report_error_)]
       (buffer (masm (before_throw_paths (new_Compiler code pcode_offs))))) /\
  (forall fn cc', emit (new_Compiler code pcode_offs) = (Some fn, cc') ->
     (throw_path_emitted err (buffer (masm cc'))
      <-> referenced (throw_error_code_ err)
            (buffer (masm (before_throw_paths (new_Compiler code pcode_offs))))) /\
     (contains [OpBind (throw_error_code_ err); OpMovErr err;
                OpJump (backend_label report_error_)]
        (buffer (masm cc'))
      <-> referenced (throw_error_code_ err)
            (buffer (masm (before_throw_paths (new_Compiler code pcode_offs)))))).
Proof.
  intros Hin.
  change [OpBind (throw_error_code_ err); OpMovErr err;
          OpJump (backend_label report_error_)] with (throw_path_ops err).
  destruct (before_throw_paths_pending code pcode_offs err) as (_ & Hn & Hu).
  generalize dependent (new_Compiler code pcode_offs). intros cc Hn Hu.
  pose proof (emit_throw_paths_emitted _ err Hin Hn) as Ha.
  pose proof (emit_throw_paths_contains _ err Hin Hn) as Hc.
  rewrite <- after_throw_paths_eq in Ha, Hc.
  split; [exact Hu|]. split; [now rewrite Ha|]. split; [now rewrite Hc|].
  split.
  - intros Hb. apply Hn. unfold throw_path_emitted.
    apply (contains_In (throw_path_ops err) _ _ Hb). now left.
  - intros fn cc' He. apply emit_Some in He as (_ & -> & _). split.
    + now rewrite run_emit_throw_path_emitted, Ha.
    + split.
      * intros Hb. apply (proj1 Hu), (proj1 Ha).
        apply (proj1 (run_emit_throw_path_emitted
                        (emitErrorHandlers (after_throw_paths cc))
                        (after_throw_paths cc) err)).
        unfold throw_path_emitted.
        apply (contains_In (throw_path_ops err) _ _ Hb). now left.
      * intros Hr. apply run_emit_contains. apply (proj2 Hc).
        apply (proj2 Hu). exact Hr.
Qed.

(** C10: both concrete out-of-line paths return [true] from [emit], so
    the out-of-line loop never takes its [return nullptr] and the tail of
    [emit] always runs to the last [if (error_)]; a compile that got past
    the decode loop can only fail there, on the error field, or at
    linking. *)
Theorem out_of_line_emit_never_fails
  (path : OutOfLinePath) (paths : list OutOfLinePath) (i : nat) (c : Compiler) :
  fst (OutOfLinePath_emit path c) = true /\
  fst (emit_ool_paths i paths c) = true /\
  fst (emit_tail c) = true /\
  (fst (emit c) = None ->
   fst (fst (run_decode_loop c)) <> LoopAbort ->
   let c' := snd (emit_tail (after_decode_loop c)) in
   error_ c' <> SP_ERROR_NONE \/ LinkCode (masm c') = 0).
Proof.
  split; [now destruct path|].
  split; [apply emit_ool_paths_ok|].
  split; [now rewrite emit_tail_eq|].
  unfold emit, after_decode_loop.
  destruct (run_decode_loop c) as [[exit r] c1]. cbn [fst snd].
  rewrite (emit_tail_eq c1). cbn [negb fst snd]. unfold emit_link.
  match goal with |- context [error_ ?x =? 0] => generalize x end.
  intros c2 Hn Hexit.
  destruct (error_ c2 =? 0) eqn:Ee;
    [|left; now apply Z.eqb_neq in Ee].
  destruct (LinkCode (masm c2) =? 0) eqn:El;
    [right; now apply Z.eqb_eq in El|].
  destruct exit; cbn in Hn; congruence.
Qed.

Lemma emitErrorPath_backward_jumps (cip err : Z) (c : Compiler) :
  backward_jumps_ (emitErrorPath cip err c) = backward_jumps_ c.
Proof. unfold emitErrorPath. now destruct (err =? 0). Qed.

Lemma emit_ool_paths_backward_jumps (paths : list OutOfLinePath) (i : nat)
      (c : Compiler) :
  backward_jumps_ (snd (emit_ool_paths i paths c)) = backward_jumps_ c.
Proof.
  revert i c. induction paths as [|path paths IH]; intros i c;
    cbn [emit_ool_paths]; [reflexivity|].
  destruct path as [pcip err|pcip bounds];
    cbn [OutOfLinePath_emit negb]; rewrite IH.
  - now rewrite emitErrorPath_backward_jumps.
  - now destruct (run_emit_registries
                    (emitOutOfBoundsErrorPath pcip bounds
                       (set_masm (bind (ool_label i) (masm c)) c))
                    (set_masm (bind (ool_label i) (masm c)) c))
      as (_ & -> & _).
Qed.

Lemma emit_throw_paths_backward_jumps (errs : list Z) (c : Compiler) :
  backward_jumps_ (emit_throw_paths errs c) = backward_jumps_ c.
Proof.
  unfold emit_throw_paths. revert c.
  induction errs as [|err errs IH]; intros c; cbn [fold_left]; [reflexivity|].
  rewrite IH. unfold emitThrowPathIfNeeded. now destruct (negb _).
Qed.

(** The thunk loop fills in [timeout_offset] and nothing else. *)
Lemma emit_timeout_thunks_records (jumps : list BackwardJump) (c : Compiler) :
  map bj_pc (fst (emit_timeout_thunks jumps c)) = map bj_pc jumps /\
  map bj_cip (fst (emit_timeout_thunks jumps c)) = map bj_cip jumps.
Proof.
  revert c. induction jumps as [|jump jumps IH]; intros c;
    cbn [emit_timeout_thunks]; [auto|].
  match goal with
  | |- context [emit_timeout_thunks jumps ?c2] =>
      destruct (IH c2) as [H1 H2]; destruct (emit_timeout_thunks jumps c2)
  end.
  cbn [fst map] in *. now rewrite H1, H2.
Qed.

Lemma emit_backward_jump_thunks_records (c : Compiler) :
  map bj_pc (backward_jumps_ (emit_backward_jump_thunks c)) =
  map bj_pc (backward_jumps_ c).
Proof.
  unfold emit_backward_jump_thunks.
  pose proof (emit_timeout_thunks_records (backward_jumps_ c) c) as [H _].
  now destruct (emit_timeout_thunks (backward_jumps_ c) c).
Qed.

Lemma int32_t_small (x : Z) : - 2 ^ 31 <= x < 2 ^ 31 -> int32_t x = x.
Proof. intros H. unfold int32_t. rewrite Z.mod_small; lia. Qed.

End EmitFacts.

(** ** The loop-edge table *)

Section LoopEdges.
Context {arch : Arch} {backend : Backend}.

Lemma emit_Some_backward_jumps (c c' : Compiler) (fn : CompiledFunction) :
  emit c = (Some fn, c') ->
  cf_edges fn = map loop_edge (backward_jumps_ c') /\
  map bj_pc (backward_jumps_ c') =
  map bj_pc (backward_jumps_ (after_decode_loop c)).
Proof.
  intros He. apply emit_Some in He as (_ & Hc' & _ & _ & ->).
  split; [reflexivity|]. rewrite Hc'.
  destruct (run_emit_registries (emitErrorHandlers (after_throw_paths c))
                                (after_throw_paths c)) as (_ & -> & _).
  rewrite after_throw_paths_eq, emit_throw_paths_backward_jumps.
  unfold before_throw_paths.
  now rewrite emit_backward_jump_thunks_records, emit_ool_paths_backward_jumps.
Qed.

(** C5: after a successful compile the [LoopEdge] array has one entry per
    backward-jump record accumulated by the decode loop; entry [i] has the
    branch pc of record [i] as [offset], and as [disp32] the record's
    [timeout_offset] minus its [pc], both taken as [int32_t] (the plain
    difference when both offsets are below 2^31). *)
Theorem loop_edges_of_backward_jumps
  (c c' : Compiler) (fn : CompiledFunction) :
  emit c = (Some fn, c') ->
  length (cf_edges fn) = length (backward_jumps_ (after_decode_loop c)) /\
  length (cf_edges fn) = length (backward_jumps_ c') /\
  map bj_pc (backward_jumps_ c') =
    map bj_pc (backward_jumps_ (after_decode_loop c)) /\
  forall i jump,
    nth_error (backward_jumps_ c') i = Some jump ->
    exists edge,
      nth_error (cf_edges fn) i = Some edge /\
      offset edge = bj_pc jump /\
      disp32 edge =
        int32_t (int32_t (bj_timeout_offset jump) - int32_t (bj_pc jump)) /\
      (0 <= bj_pc jump < 2 ^ 31 -> 0 <= bj_timeout_offset jump < 2 ^ 31 ->
       disp32 edge = bj_timeout_offset jump - bj_pc jump).
Proof.
  intros He. apply emit_Some_backward_jumps in He as [-> Hpc].
  split; [|split; [|split]].
  - rewrite length_map, <- (length_map bj_pc), Hpc. apply length_map.
  - apply length_map.
  - exact Hpc.
  - intros i jump Hi. exists (loop_edge jump). split.
    + now apply map_nth_error.
    + split; [reflexivity|]. split; [reflexivity|].
      intros H1 H2. cbn [disp32 loop_edge].
      rewrite (int32_t_small (bj_pc jump)) by lia.
      rewrite (int32_t_small (bj_timeout_offset jump)) by lia.
      apply int32_t_small. lia.
Qed.

End LoopEdges.

(** ** The decode loop *)

Section DecodeLoop.
Context {arch : Arch} {backend : Backend}.

Lemma visitNext_reader (r r' : PcodeReader) (c c' : Compiler) (ok : bool) :
  visitNext r c = (ok, r', c') ->
  code_ r' = code_ r /\ (cip_ r < cip_ r')%nat.
Proof. unfold visitNext. intros [= _ <- _]. simpl. split; [reflexivity | lia]. Qed.

Lemma is_boundary_true (op : cell_t) :
  is_boundary op = true <-> op = OP_PROC \/ op = OP_ENDPROC.
Proof. unfold is_boundary. rewrite orb_true_iff, !Z.eqb_eq. tauto. Qed.

Lemma is_boundary_false (op : cell_t) :
  is_boundary op = false <-> op <> OP_PROC /\ op <> OP_ENDPROC.
Proof. unfold is_boundary. rewrite orb_false_iff, !Z.eqb_neq. tauto. Qed.

(** The loop stops at a function boundary before doing anything. *)
Lemma decode_loop_at_boundary (fuel : nat) (r : PcodeReader) (c : Compiler) :
  more r = true ->
  is_boundary (peekOpcode r) = true ->
  decode_loop (S fuel) r c = (LoopBoundary, r, c) /\
  decode_visits (S fuel) r c = [].
Proof. intros Hm Hb. cbn [decode_loop decode_visits]. now rewrite Hm, Hb. Qed.

(** The iterations of the loop, the exit it takes and the state it
    leaves. *)
Lemma decode_loop_visits (fuel : nat) (r r' : PcodeReader) (c c' : Compiler)
      (exit : LoopExit) :
  decode_loop fuel r c = (exit, r', c') ->
  Forall (fun v => more (v_reader v) = true /\
                   is_boundary (peekOpcode (v_reader v)) = false /\
                   (cip_ r <= cip_ (v_reader v) < cip_ r')%nat /\
                   code_ (v_reader v) = code_ r)
         (decode_visits fuel r c) /\
  c' = last (map v_after (decode_visits fuel r c)) c /\
  (cip_ r <= cip_ r')%nat /\ code_ r' = code_ r /\
  (exit = LoopBoundary ->
   more r' = true /\ is_boundary (peekOpcode r') = true) /\
  (exit = LoopEnd -> (cells_left r <= fuel)%nat -> more r' = false).
Proof.
  revert r c. induction fuel as [|fuel IH]; intros r c;
    cbn [decode_loop decode_visits].
  - intros [= <- <- <-]. repeat split; auto; try discriminate.
    intros _. unfold cells_left, more. intros H. apply Nat.ltb_ge. lia.
  - destruct (more r) eqn:Hm;
      [|intros [= <- <- <-]; repeat split; auto; discriminate].
    destruct (is_boundary (peekOpcode r)) eqn:Hb;
      [intros [= <- <- <-]; repeat split; auto; discriminate|].
    destruct (visitNext r (before_visit r c)) as [[ok r1] c1] eqn:Ev.
    apply visitNext_reader in Ev as [Hcode Hcip].
    destruct (negb ok || negb (error_ c1 =? 0)).
    + intros [= <- <- <-]. cbn [map last v_after v_reader].
      repeat split; auto; try discriminate; try lia.
      constructor; [|constructor]. cbn [v_reader]. repeat split; auto; lia.
    + intros H. destruct (IH _ _ H) as (Hv & Hc & Hle & Hco & Hbd & Hend).
      cbn [map]. rewrite last_cons_default.
      split; [|split; [|split; [|split; [|split]]]];
        auto; try lia; try congruence.
      * constructor; [cbn [v_reader]; repeat split; auto; lia|].
        eapply Forall_impl; [|exact Hv]. cbv beta.
        intros v (H1 & H2 & H3 & H4). repeat split; auto; try lia; congruence.
      * intros He Hf. apply Hend; auto.
        unfold cells_left in *. rewrite Hcode. lia.
Qed.

(** An iteration whose visitor fails, or that leaves the error field set,
    is the last one: the loop returns there. *)
Lemma decode_loop_aborts (fuel : nat) (r r' : PcodeReader) (c c' : Compiler)
      (exit : LoopExit) (v : Visit) :
  decode_loop fuel r c = (exit, r', c') ->
  In v (decode_visits fuel r c) ->
  v_ok v = false \/ error_ (v_after v) <> SP_ERROR_NONE ->
  exit = LoopAbort /\ c' = v_after v.
Proof.
  revert r c. induction fuel as [|fuel IH]; intros r c;
    cbn [decode_loop decode_visits]; [intros _ []|].
  destruct (more r); [|intros _ []].
  destruct (is_boundary (peekOpcode r)); [intros _ []|].
  destruct (visitNext r (before_visit r c)) as [[ok r1] c1].
  destruct (negb ok || negb (error_ c1 =? 0)) eqn:Hab.
  - intros [= <- <- <-] [<-|[]] _. auto.
  - intros H [<-|Hin] Hfail.
    + exfalso. apply orb_false_elim in Hab as [H1 H2].
      apply negb_false_iff in H1, H2. apply Z.eqb_eq in H2.
      cbn [v_ok v_after] in Hfail. unfold SP_ERROR_NONE in Hfail.
      destruct Hfail; congruence.
    + eapply IH; eauto.
Qed.

(** Conversely the loop only returns early from such an iteration. *)
Lemma decode_loop_abort_visit (fuel : nat) (r r' : PcodeReader) (c c' : Compiler) :
  decode_loop fuel r c = (LoopAbort, r', c') ->
  exists v, In v (decode_visits fuel r c) /\ v_after v = c' /\
            v_after v =
              run_visit (vr_actions (visit (peekOpcode (v_reader v))
                                       (skipn (S (cip_ (v_reader v)))
                                          (code_ (v_reader v)))
                                       (v_before v)))
                        (v_before v) /\
            v_ok v = vr_ok (visit (peekOpcode (v_reader v))
                                  (skipn (S (cip_ (v_reader v)))
                                     (code_ (v_reader v)))
                                  (v_before v)) /\
            (v_ok v = false \/ error_ (v_after v) <> SP_ERROR_NONE).
Proof.
  revert r c. induction fuel as [|fuel IH]; intros r c;
    cbn [decode_loop decode_visits]; [discriminate|].
  destruct (more r); [|discriminate].
  destruct (is_boundary (peekOpcode r)); [discriminate|].
  destruct (visitNext r (before_visit r c)) as [[ok r1] c1] eqn:Ev.
  destruct (negb ok || negb (error_ c1 =? 0)) eqn:Hab.
  - intros [= <- <-]. eexists. split; [now left|]. cbn [v_after v_ok v_reader v_before].
    unfold visitNext in Ev. injection Ev as Hok _ Hc1.
    repeat split; auto.
    apply orb_true_iff in Hab as [H|H]; apply negb_true_iff in H.
    + now left.
    + right. now apply Z.eqb_neq in H.
  - intros H. destruct (IH _ _ H) as (v & Hin & Hv). exists v.
    split; [now right | exact Hv].
Qed.

(** Every iteration: the visitor is handed the compiler of the previous
    iteration with the label bound and [op_cip_] saved, and what it leaves
    is what the rest of the loop builds on. *)
Lemma decode_visits_shape (fuel : nat) (r r' : PcodeReader) (c c' : Compiler)
      (exit : LoopExit) (v : Visit) :
  decode_loop fuel r c = (exit, r', c') ->
  In v (decode_visits fuel r c) ->
  exists c0,
    emits no_throw_bind (masm c) (masm c0) /\
    v_before v = before_visit (v_reader v) c0 /\
    v_after v =
      run_visit (vr_actions (visit (peekOpcode (v_reader v))
                               (skipn (S (cip_ (v_reader v)))
                                  (code_ (v_reader v)))
                               (v_before v)))
                (v_before v) /\
    emits no_throw_bind (masm (v_after v)) (masm c').
Proof.
  revert r c. induction fuel as [|fuel IH]; intros r c;
    cbn [decode_loop decode_visits]; [intros _ []|].
  destruct (more r); [|intros _ []].
  destruct (is_boundary (peekOpcode r)); [intros _ []|].
  destruct (visitNext r (before_visit r c)) as [[ok r1] c1] eqn:Ev.
  pose proof (visitNext_emits _ _ _ _ _ Ev) as Hem.
  unfold visitNext in Ev. injection Ev as _ _ Hc1.
  destruct (negb ok || negb (error_ c1 =? 0)).
  - intros [= <- <- <-] [<-|[]]. exists c. cbn [v_before v_after v_reader].
    repeat split; auto using emits_refl.
  - intros H [<-|Hin].
    + exists c. cbn [v_before v_after v_reader].
      repeat split; auto using emits_refl.
      eapply decode_loop_emits, H.
    + destruct (IH _ _ H Hin) as (c0 & H0 & Hrest). exists c0.
      split; [|exact Hrest].
      eapply emits_trans; [apply before_visit_emits|].
      eapply emits_trans; [exact Hem | exact H0].
Qed.

(** C9: the decode loop stops, before binding or dispatching anything, as
    soon as the opcode it peeks is [PROC] or [ENDPROC], wherever that
    is.  No instruction it visits is a [PROC] or an [ENDPROC], every
    visited instruction lies before the place where the loop stopped, and
    the compiler the loop leaves is the one the last visit left: nothing
    of what follows the boundary is compiled.  (The [PROC] that opens the
    function is consumed by [begin()] before the loop.) *)
Theorem decode_loop_stops_at_function_boundary (c : Compiler) :
  let '(exit, r', c') := run_decode_loop c in
  Forall (fun v => peekOpcode (v_reader v) <> OP_PROC /\
                   peekOpcode (v_reader v) <> OP_ENDPROC /\
                   (cip_ (v_reader v) < cip_ r')%nat)
         (run_visits c) /\
  c' = last (map v_after (run_visits c)) (after_prologue c) /\
  (exit = LoopBoundary ->
   more r' = true /\ (peekOpcode r' = OP_PROC \/ peekOpcode r' = OP_ENDPROC)) /\
  (exit = LoopEnd -> more r' = false) /\
  (forall fuel r c0,
     more r = true ->
     peekOpcode r = OP_PROC \/ peekOpcode r = OP_ENDPROC ->
     decode_loop (S fuel) r c0 = (LoopBoundary, r, c0) /\
     decode_visits (S fuel) r c0 = []).
Proof.
  unfold run_decode_loop, run_visits.
  destruct (decode_loop _ _ _) as [[exit r'] c'] eqn:E.
  destruct (decode_loop_visits _ _ _ _ _ _ E) as (Hv & Hc & _ & _ & Hb & He).
  split; [|split; [exact Hc|split; [|split]]].
  - eapply Forall_impl; [|exact Hv]. cbv beta.
    intros v (_ & H2 & H3 & _). apply is_boundary_false in H2. intuition lia.
  - intros Hx. destruct (Hb Hx) as [H1 H2]. now apply is_boundary_true in H2.
  - intros Hx. now apply He.
  - intros fuel r c0 Hm Hp. apply decode_loop_at_boundary; auto.
    now apply is_boundary_true.
Qed.

(** C6: at every instruction the reader visits, the jump-map label at
    index [cip - codeseg] is bound, and [op_cip_] saved, in the compiler
    handed to the opcode visitor; the bind is the last operation in the
    buffer at that point, so everything the visitor emits, and everything
    the following opcodes emit, comes after it, and the label is still
    bound when the loop ends. *)
Theorem jump_map_label_bound_before_visit (c : Compiler) (v : Visit) :
  In v (run_visits c) ->
  let l := jump_map_ (cip (v_reader v)) in
  let acts := vr_actions (visit (peekOpcode (v_reader v))
                            (skipn (S (cip_ (v_reader v))) (code_ (v_reader v)))
                            (v_before v)) in
  exists pre rest,
    buffer (masm (v_before v)) = pre ++ [OpBind l] /\
    bound (labels (masm (v_before v)) l) = true /\
    op_cip_ (v_before v) = Some (cip (v_reader v)) /\
    v_after v = run_visit acts (v_before v) /\
    buffer (masm (v_after v)) =
      (pre ++ [OpBind l]) ++ flat_map visit_action_ops acts /\
    buffer (masm (after_decode_loop c)) = buffer (masm (v_after v)) ++ rest /\
    bound (labels (masm (after_decode_loop c)) l) = true.
Proof.
  intros Hin l acts. unfold run_visits in Hin.
  unfold after_decode_loop, run_decode_loop.
  destruct (decode_loop _ _ _) as [[exit r'] c'] eqn:E. cbn [snd].
  destruct (decode_visits_shape _ _ _ _ _ _ _ E Hin) as (c0 & _ & Hb & Ha & Hr).
  fold acts in Ha.
  apply emits_buffer in Hr as Hbuf. destruct Hbuf as (rest & _ & Hbuf).
  exists (buffer (masm c0)), rest.
  assert (Hbound : bound (labels (masm (v_before v)) l) = true).
  { rewrite Hb, before_visit_masm. subst l. now rewrite bind_binds. }
  assert (Hafter : bound (labels (masm (v_after v)) l) = true).
  { rewrite Ha. eapply emits_keeps_bound; [apply run_visit_emits|exact Hbound]. }
  split; [now rewrite Hb|]. split; [exact Hbound|].
  split; [now rewrite Hb|]. split; [exact Ha|].
  split; [|split; [exact Hbuf|]].
  - rewrite Ha at 1. rewrite masm_run_visit, buffer_appends. now rewrite Hb.
  - eapply emits_keeps_bound; [exact Hr | exact Hafter].
Qed.

End DecodeLoop.

(** ** Failing compiles *)

Section Failure.
Context {arch : Arch} {backend : Backend}.

Lemma emit_link_None (c c' : Compiler) :
  emit_link c = (None, c') -> error_ c' <> SP_ERROR_NONE.
Proof.
  unfold emit_link. destruct (error_ c =? 0) eqn:E; cbn [negb].
  - destruct (LinkCode (masm c) =? 0); [|discriminate].
    intros [= <-]. discriminate.
  - intros [= <-]. now apply Z.eqb_neq in E.
Qed.

Lemma emit_link_error (c : Compiler) :
  error_ c <> SP_ERROR_NONE -> emit_link c = (None, c).
Proof.
  intros H. unfold emit_link. apply Z.eqb_neq in H.
  unfold SP_ERROR_NONE in H. now rewrite H.
Qed.

(** Under the visitors' contract a failed [emit] leaves a nonzero error
    code. *)
Lemma emit_None_error (c c' : Compiler) :
  visitors_report_failure ->
  emit c = (None, c') -> error_ c' <> SP_ERROR_NONE.
Proof.
  intros Hvis. unfold emit, run_decode_loop.
  destruct (decode_loop _ _ _) as [[exit r] c1] eqn:E.
  rewrite (emit_tail_eq c1). cbn [negb].
  destruct exit; try apply emit_link_None.
  intros [= <-].
  destruct (decode_loop_abort_visit _ _ _ _ _ E)
    as (v & _ & <- & Ha & Hok & [Hf|Hf]); [|exact Hf].
  rewrite Ha. apply Hvis. now rewrite <- Hok.
Qed.

Lemma compile_fails_at_emit (c : Compiler) :
  compile_fails_at c -> fst (emit c) = None.
Proof.
  unfold compile_fails_at, visitor_fails, error_field_set, emit,
    after_decode_loop, run_visits, run_decode_loop.
  destruct (decode_loop _ _ _) as [[exit r] c1] eqn:E. cbn [fst snd].
  intros [(v & Hin & Hf)|[(v & Hin & Hf)|[Hx Herr]]].
  - now destruct (decode_loop_aborts _ _ _ _ _ _ _ E Hin (or_introl Hf))
      as [-> _].
  - now destruct (decode_loop_aborts _ _ _ _ _ _ _ E Hin (or_intror Hf))
      as [-> _].
  - rewrite (emit_tail_eq c1) in *. cbn [negb snd] in *.
    rewrite emit_link_error by exact Herr. now destruct exit.
Qed.

(** When it is the error field that stops the compile, the code [emit]
    leaves is that nonzero code, whatever the visitors do. *)
Lemma error_field_set_emit (c : Compiler) :
  error_field_set c -> error_ (snd (emit c)) <> SP_ERROR_NONE.
Proof.
  unfold error_field_set, emit, after_decode_loop, run_visits, run_decode_loop.
  destruct (decode_loop _ _ _) as [[exit r] c1] eqn:E. cbn [fst snd].
  intros [(v & Hin & Hf)|[Hx Herr]].
  - destruct (decode_loop_aborts _ _ _ _ _ _ _ E Hin (or_intror Hf))
      as [-> ->]. exact Hf.
  - rewrite (emit_tail_eq c1) in *. cbn [negb snd] in *.
    rewrite emit_link_error by exact Herr. now destruct exit.
Qed.

(** C3 (as amended): when some instruction's visitor returns failure, or
    the error field is nonzero after an instruction or at the last check
    of [emit], [emit] returns no function; [Compile] returns [nullptr],
    hands the value of the driver's error field to its caller through
    [*err], a nonzero code whenever the error field is what stopped the
    compile, and never calls [setCompiledFunction]: the method table is
    unchanged. *)
Theorem Compile_error_leaves_method_uncompiled
  (w : World) (key : Z) (method : MethodInfo) (err : Z) :
  compile_fails_at (new_Compiler (code w) (pcode_offset method)) ->
  fst (emit (new_Compiler (code w) (pcode_offset method))) = None /\
  let '(fn, err', w') := Compile w key method err in
  fn = None /\
  err' = error (snd (emit (new_Compiler (code w) (pcode_offset method)))) /\
  methods w' = methods w /\
  effects w' = effects w ++ [RanCompile (pcode_offset method)] /\
  (error_field_set (new_Compiler (code w) (pcode_offset method)) ->
   err' <> SP_ERROR_NONE).
Proof.
  intros Hf. apply compile_fails_at_emit in Hf as Hn. split; [exact Hn|].
  pose proof (error_field_set_emit
                (new_Compiler (code w) (pcode_offset method))) as Hset.
  unfold Compile.
  destruct (emit (new_Compiler (code w) (pcode_offset method)))
    as [[fn|] cc'] eqn:E; [discriminate|].
  cbn [snd] in *. repeat split; auto.
Qed.

(** C8 (as amended): a call of [CompileFromThunk] that has a compiled
    function for the method, the one already set or the one the compile
    it runs returns, returns success, having stored that function's entry
    address through [addrp] and then patched the call site with the same
    address, in that order; a call that returns an error leaves every
    call site and every pointer as it was; and every call does one or the
    other: it publishes the entry of the function the method then holds,
    or it publishes nothing. *)
Theorem CompileFromThunk_publishes_then_patches
  (w : World) (pcode_offs addrp site : Z) :
  let '(status, w') := CompileFromThunk w pcode_offs addrp site in
  ((exists method fn,
      AcquireMethod w' pcode_offs = Some method /\ jit method = Some fn /\
      status = SP_ERROR_NONE /\
      stores_then_patches w w' addrp site (GetEntryAddress fn)) \/
   publishes_nothing w w') /\
  (status <> SP_ERROR_NONE -> publishes_nothing w w') /\
  (forall method fn,
     HandleInterrupt w = true ->
     AcquireMethod w pcode_offs = Some method ->
     Validate method = SP_ERROR_NONE ->
     jit method = Some fn \/
     (jit method = None /\
      fst (emit (new_Compiler (code w) (pcode_offset method))) = Some fn) ->
     status = SP_ERROR_NONE /\
     stores_then_patches w w' addrp site (GetEntryAddress fn)).
Proof.
  assert (Hsame : publishes_nothing w w).
  { repeat split. exists []. now rewrite app_nil_r. }
  unfold CompileFromThunk.
  destruct (HandleInterrupt w); cbn [negb];
    [|split; [now right | split; [auto | intros m f Hi; discriminate Hi]]].
  destruct (AcquireMethod w pcode_offs) as [method|] eqn:Ha;
    [|split; [now right | split; [auto | intros m f _ Hm; discriminate Hm]]].
  destruct (Validate method =? SP_ERROR_NONE) eqn:Ev; cbn [negb].
  2:{ apply Z.eqb_neq in Ev.
      split; [now right | split; [auto |]].
      intros m f _ [= <-] Hv. contradiction. }
  assert (Hpub : forall fn w0 pre,
            effects w0 = effects w ++ pre -> existsb publishes pre = false ->
            stores_then_patches w
              (PatchCallThunk site (GetEntryAddress fn)
                 (store_pointer addrp (GetEntryAddress fn) w0))
              addrp site (GetEntryAddress fn)).
  { intros fn w0 pre He Hp. exists pre.
    unfold PatchCallThunk, store_pointer, log, update.
    cbn [effects pointers call_sites].
    rewrite He, !Z.eqb_refl, <- !app_assoc. auto. }
  unfold AcquireMethod in Ha.
  destruct (jit method) as [fn|] eqn:Hj.
  - assert (H : stores_then_patches w
                  (PatchCallThunk site (GetEntryAddress fn)
                     (store_pointer addrp (GetEntryAddress fn) w))
                  addrp site (GetEntryAddress fn))
      by (apply (Hpub fn w []); [now rewrite app_nil_r | reflexivity]).
    split; [|split].
    + left. exists method, fn. unfold AcquireMethod. cbn [methods].
      unfold PatchCallThunk, store_pointer, log. cbn [methods]. auto.
    + intros Hc. now contradiction Hc.
    + intros m f _ [= <-] _ [Hf|[Hf _]]; [|congruence].
      rewrite Hj in Hf. injection Hf as <-. auto.
  - unfold Compile.
    destruct (emit (new_Compiler (code w) (pcode_offset method)))
      as [[fn|] cc'] eqn:E.
    + match goal with
      | |- context [store_pointer _ _ ?w0] =>
          assert (H : stores_then_patches w
                        (PatchCallThunk site (GetEntryAddress fn)
                           (store_pointer addrp (GetEntryAddress fn) w0))
                        addrp site (GetEntryAddress fn))
            by (apply (Hpub fn w0
                         [RanCompile (pcode_offset method);
                          SetCompiledFunction pcode_offs fn]);
                [cbn [effects store_method log]; now rewrite <- app_assoc
                |reflexivity])
      end.
      split; [|split].
      * left. exists (setCompiledFunction fn method), fn.
        unfold AcquireMethod, PatchCallThunk, store_pointer, store_method, log.
        cbn [methods]. rewrite Z.eqb_refl. auto.
      * intros Hc. now contradiction Hc.
      * intros m f _ [= <-] _ [Hf|[_ Hf]]; [congruence|].
        rewrite E in Hf. cbn [fst] in Hf. injection Hf as <-. auto.
    + assert (Hnone : publishes_nothing w
                        (log (RanCompile (pcode_offset method)) w)).
      { repeat split. now exists [RanCompile (pcode_offset method)]. }
      split; [now right|]. split; [auto|].
      intros m f _ [= <-] _ [Hf|[_ Hf]]; [congruence|].
      rewrite E in Hf. cbn [fst] in Hf. discriminate Hf.
Qed.

End Failure.

(** ** The driver on the sample backend *)

Section SampleRuns.
Import Sample.

Lemma sample_visitors_report_failure : visitors_report_failure.
Proof.
  intros op cells c. cbn [visit backend]. unfold sample_visit.
  destruct (op =? OP_RETN); [discriminate|].
  destruct (op =? OP_JUMP); [discriminate|].
  destruct (op =? OP_BOUNDS); [discriminate|].
  destruct (op =? OP_SDIV); [discriminate|].
  intros _. cbn. discriminate.
Qed.

(** The minimal function compiles to prologue, one bound instruction and
    the error handlers; no loop edge, no error slot used. *)
Example emit_minimal :
  fst (emit (new_Compiler minimal 0)) =
    Some {| cf_code := 4103; cf_pcode_offs := 0; cf_edges := [];
            cf_cipmap := [] |} /\
  buffer (masm (snd (emit (new_Compiler minimal 0)))) =
    [OpRaw [85; 137; 229]; OpBind (jump_map_ 1); OpRaw [195];
     OpBind (backend_label report_error_); OpRaw [80; 232];
     OpBind (backend_label throw_timeout_); OpRaw [232]].
Proof. split; vm_compute; reflexivity. Qed.

(** The looping function: the loop visits the instructions at cells 1 and
    3 and stops on the [ENDPROC] at cell 5, before the second function;
    one loop edge, and the array-bounds path, the only one referenced, is
    the only shared path laid down. *)
Example emit_looping :
  map (fun v => cip (v_reader v)) (run_visits (new_Compiler looping 0)) = [1; 3] /\
  fst (fst (run_decode_loop (new_Compiler looping 0))) = LoopBoundary /\
  cip (snd (fst (run_decode_loop (new_Compiler looping 0)))) = 5 /\
  fst (emit (new_Compiler looping 0)) =
    Some {| cf_code := 4137; cf_pcode_offs := 0;
            cf_edges := [{| offset := 15; disp32 := 8 |}];
            cf_cipmap := [{| cipoffs := 1; pcoffs := 23 |};
                          {| cipoffs := 3; pcoffs := 28 |}] |} /\
  buffer (masm (snd (emit (new_Compiler looping 0)))) =
    [OpRaw [85; 137; 229]; OpBind (jump_map_ 1); OpRaw [129; 248];
     OpJump (ool_label 0); OpBind (jump_map_ 3); OpJump (jump_map_ 1);
     OpBind (ool_label 0); OpAlignStack; OpCall (throw_error_code_ 15);
     OpCall (backend_label throw_timeout_);
     OpBind (throw_error_code_ 15); OpMovErr 15;
     OpJump (backend_label report_error_);
     OpBind (backend_label report_error_); OpRaw [80; 232];
     OpBind (backend_label throw_timeout_); OpRaw [232]].
Proof. repeat split; vm_compute; reflexivity. Qed.

(** A rejected opcode: no function, the error code of the visitor, and a
    thunk call that returns it without publishing anything. *)
Example emit_rejected :
  fst (emit (new_Compiler rejected 0)) = None /\
  error (snd (emit (new_Compiler rejected 0))) = SP_ERROR_INVALID_INSTRUCTION /\
  fst (CompileFromThunk (world rejected true None) 0 100 200) =
    SP_ERROR_INVALID_INSTRUCTION /\
  effects (snd (CompileFromThunk (world rejected true None) 0 100 200)) =
    [RanCompile 0].
Proof. repeat split; vm_compute; reflexivity. Qed.

Lemma CompileFromThunk_preempted_witness :
  HandleInterrupt (world minimal false None) = false /\
  let '(status, w') := CompileFromThunk (world minimal false None) 0 100 200 in
  status = SP_ERROR_TIMEOUT /\
  w' = world minimal false None /\
  effects w' = effects (world minimal false None) /\
  methods w' = methods (world minimal false None) /\
  pointers w' 100 = pointers (world minimal false None) 100 /\
  call_sites w' 200 = call_sites (world minimal false None) 200.
Proof.
  split; [reflexivity|].
  apply (CompileFromThunk_preempted (world minimal false None) 0 100 200).
  reflexivity.
Defined.

Lemma CompileFromThunk_twice_witness :
  let w := world minimal true (Some compiled_minimal) in
  let '(status1, w1) := CompileFromThunk w 0 100 200 in
  let '(status2, w2) := CompileFromThunk w1 0 100 200 in
  status1 = SP_ERROR_NONE /\ status2 = SP_ERROR_NONE /\
  pointers w1 100 = 4103 /\ pointers w2 100 = 4103 /\
  effects w1 = effects w ++ [StoreEntry 100 4103; PatchedCall 200 4103] /\
  effects w2 = effects w1 ++ [StoreEntry 100 4103; PatchedCall 200 4103] /\
  call_sites w1 200 = 4103 /\
  (forall s, call_sites w2 s = if s =? 200 then 4103 else call_sites w1 s) /\
  (200 = 200 -> forall s, call_sites w2 s = call_sites w1 s).
Proof.
  apply (CompileFromThunk_twice
           (world minimal true (Some compiled_minimal)) 0 100 200 100 200
           {| pcode_offset := 0; Validate := SP_ERROR_NONE;
              jit := Some compiled_minimal |} compiled_minimal);
    reflexivity.
Defined.

Lemma Compile_error_leaves_method_uncompiled_witness :
  compile_fails_at (new_Compiler rejected 0) /\
  error_field_set (new_Compiler rejected 0) /\
  fst (emit (new_Compiler rejected 0)) = None /\
  let '(fn, err', w') :=
    Compile (world rejected true None) 0
            {| pcode_offset := 0; Validate := SP_ERROR_NONE; jit := None |} 0 in
  fn = None /\
  err' = SP_ERROR_INVALID_INSTRUCTION /\
  err' <> SP_ERROR_NONE /\
  methods w' = methods (world rejected true None) /\
  effects w' = effects (world rejected true None) ++ [RanCompile 0].
Proof.
  assert (He : error_field_set (new_Compiler rejected 0)).
  { left. eexists. split; [right; left; reflexivity|]. cbn. discriminate. }
  assert (H : compile_fails_at (new_Compiler rejected 0)) by (right; exact He).
  split; [exact H|]. split; [exact He|].
  pose proof (Compile_error_leaves_method_uncompiled
                (world rejected true None) 0
                {| pcode_offset := 0; Validate := SP_ERROR_NONE; jit := None |}
                0 H) as [Hn Hc].
  split; [exact Hn|].
  destruct (Compile (world rejected true None) 0
              {| pcode_offset := 0; Validate := SP_ERROR_NONE; jit := None |} 0)
    as [[fn err'] w'].
  destruct Hc as (H1 & H2 & H3 & H4 & H5).
  split; [exact H1|]. split; [rewrite H2; vm_compute; reflexivity|].
  split; [exact (H5 He)|]. split; [exact H3 | exact H4].
Defined.

(** C3 as stated fails: with a visitor that returns failure without
    reporting an error, the compile is stopped by that failure, [emit]
    returns no function, and the code [Compile] hands to its caller is
    [SP_ERROR_NONE], not a nonzero code. *)
Lemma Compile_failure_can_surface_no_error :
  @visitor_fails x86 SampleMore.silent (new_Compiler rejected 0) /\
  fst (@emit x86 SampleMore.silent (new_Compiler rejected 0)) = None /\
  fst (fst (@Compile x86 SampleMore.silent (world rejected true None) 0
              {| pcode_offset := 0; Validate := SP_ERROR_NONE; jit := None |}
              0)) = None /\
  snd (fst (@Compile x86 SampleMore.silent (world rejected true None) 0
              {| pcode_offset := 0; Validate := SP_ERROR_NONE; jit := None |}
              0)) = SP_ERROR_NONE.
Proof.
  split; [|repeat split; vm_compute; reflexivity].
  eexists. split; [right; left; reflexivity|]. reflexivity.
Qed.

Lemma throw_path_emitted_iff_referenced_witness :
  In SP_ERROR_ARRAY_BOUNDS throw_path_errors /\
  (contains [OpBind (throw_error_code_ SP_ERROR_ARRAY_BOUNDS);
             OpMovErr SP_ERROR_ARRAY_BOUNDS;
             OpJump (backend_label report_error_)]
     (buffer (masm (after_throw_paths (new_Compiler looping 0))))
   <-> referenced (throw_error_code_ SP_ERROR_ARRAY_BOUNDS)
         (buffer (masm (before_throw_paths (new_Compiler looping 0))))).
Proof.
  assert (H : In SP_ERROR_ARRAY_BOUNDS throw_path_errors)
    by (simpl; auto).
  split; [exact H|].
  exact (proj1 (proj2 (proj2 (throw_path_emitted_iff_referenced
                                looping 0 SP_ERROR_ARRAY_BOUNDS H)))).
Defined.

Lemma loop_edges_of_backward_jumps_witness :
  exists fn c',
    emit (new_Compiler looping 0) = (Some fn, c') /\
    length (cf_edges fn) = length (backward_jumps_ c').
Proof.
  destruct (emit (new_Compiler looping 0)) as [[fn|] c'] eqn:E.
  - exists fn, c'. split; [reflexivity|].
    exact (proj1 (proj2 (loop_edges_of_backward_jumps
                           (new_Compiler looping 0) c' fn E))).
  - exfalso. apply (f_equal fst) in E. vm_compute in E. discriminate.
Defined.

Lemma jump_map_label_bound_before_visit_witness :
  exists v,
    In v (run_visits (new_Compiler looping 0)) /\
    bound (labels (masm (v_before v)) (jump_map_ (cip (v_reader v)))) = true.
Proof.
  destruct (nth_error (run_visits (new_Compiler looping 0)) 1) as [v|] eqn:E.
  - apply nth_error_In in E. exists v. split; [exact E|].
    destruct (jump_map_label_bound_before_visit (new_Compiler looping 0) v E)
      as (pre & rest & _ & Hb & _).
    exact Hb.
  - exfalso. apply nth_error_None in E. vm_compute in E. lia.
Defined.

Lemma CompileFromThunk_publishes_then_patches_witness :
  let '(status, w') := CompileFromThunk (world minimal true None) 0 100 200 in
  status = SP_ERROR_NONE /\
  stores_then_patches (world minimal true None) w' 100 200 4103 /\
  pointers w' 100 = 4103 /\ call_sites w' 200 = 4103.
Proof.
  pose proof (CompileFromThunk_publishes_then_patches
                (world minimal true None) 0 100 200) as H.
  destruct (CompileFromThunk (world minimal true None) 0 100 200)
    as [status w'].
  destruct H as (_ & _ & H).
  destruct (H {| pcode_offset := 0; Validate := SP_ERROR_NONE; jit := None |}
              {| cf_code := 4103; cf_pcode_offs := 0; cf_edges := [];
                 cf_cipmap := [] |}
              eq_refl eq_refl eq_refl
              (or_intror (conj eq_refl
                            (proj1 emit_minimal)))) as [Hs Hp].
  split; [exact Hs|]. split; [exact Hp|].
  destruct Hp as (pre & _ & _ & Hptr & Hsite). auto.
Defined.

(** C8 as stated fails: with a visitor that returns failure without
    reporting an error, the call returns [SP_ERROR_NONE], a success, and
    yet nothing was stored through [addrp] and the call site was not
    patched. *)
Lemma CompileFromThunk_success_without_entry :
  fst (@CompileFromThunk x86 SampleMore.silent
         (world rejected true None) 0 100 200) = SP_ERROR_NONE /\
  effects (snd (@CompileFromThunk x86 SampleMore.silent
                  (world rejected true None) 0 100 200)) = [RanCompile 0] /\
  existsb publishes
    (effects (snd (@CompileFromThunk x86 SampleMore.silent
                     (world rejected true None) 0 100 200))) = false /\
  pointers (snd (@CompileFromThunk x86 SampleMore.silent
                   (world rejected true None) 0 100 200)) 100 =
    pointers (world rejected true None) 100 /\
  call_sites (snd (@CompileFromThunk x86 SampleMore.silent
                     (world rejected true None) 0 100 200)) 200 =
    call_sites (world rejected true None) 200.
Proof. repeat split; vm_compute; reflexivity. Qed.

End SampleRuns.

(** ** The layout of the emitted code *)

Section LayoutFacts.
Context {arch : Arch} {backend : Backend}.

Lemma appends_nil (m : Assembler) : appends [] m = m.
Proof. reflexivity. Qed.

Lemma appends_cons (op : AsmOp) (ops : list AsmOp) (m : Assembler) :
  appends (op :: ops) m = appends ops (append op m).
Proof. reflexivity. Qed.

(** The decode loop appends, iteration after iteration, the bind of the
    instruction's label followed by the visitor's code. *)
Lemma decode_loop_masm (fuel : nat) (r r' : PcodeReader) (c c' : Compiler)
      (exit : LoopExit) :
  decode_loop fuel r c = (exit, r', c') ->
  masm c' = appends (flat_map visit_ops (decode_visits fuel r c)) (masm c).
Proof.
  revert r c. induction fuel as [|fuel IH]; intros r c;
    cbn [decode_loop decode_visits].
  - now intros [= _ _ <-].
  - destruct (more r); [|now intros [= _ _ <-]].
    destruct (is_boundary (peekOpcode r)); [now intros [= _ _ <-]|].
    destruct (visitNext r (before_visit r c)) as [[ok r1] c1] eqn:Ev.
    unfold visitNext in Ev. injection Ev as _ _ Hc1.
    assert (H1 : masm c1 =
                 appends (visit_ops {| v_reader := r;
                                       v_before := before_visit r c;
                                       v_ok := ok; v_after := c1 |})
                         (masm c)).
    { unfold visit_ops. cbn [v_reader v_before].
      rewrite appends_cons, <- Hc1, masm_run_visit. reflexivity. }
    destruct (negb ok || negb (error_ c1 =? 0)).
    + intros [= _ _ <-]. cbn [flat_map]. now rewrite app_nil_r.
    + intros H. cbn [flat_map]. rewrite appends_app, <- H1. eapply IH, H.
Qed.

Lemma emitErrorPath_masm (pcip err : Z) (c : Compiler) :
  masm (emitErrorPath pcip err c) =
  appends [OpAlignStack; OpCall (error_path_target err)] (masm c).
Proof.
  unfold emitErrorPath, error_path_target. now destruct (err =? 0).
Qed.

Lemma OutOfLinePath_emit_masm (path : OutOfLinePath) (c : Compiler) :
  masm (snd (OutOfLinePath_emit path c)) = appends (path_ops path c) (masm c).
Proof.
  destruct path as [pcip err|pcip bounds]; cbn [OutOfLinePath_emit snd path_ops].
  - apply emitErrorPath_masm.
  - apply masm_run_emit.
Qed.

Lemma emit_ool_paths_masm (paths : list OutOfLinePath) (i : nat) (c : Compiler) :
  masm (snd (emit_ool_paths i paths c)) = appends (ool_ops i paths c) (masm c).
Proof.
  revert i c. induction paths as [|path paths IH]; intros i c;
    cbn [emit_ool_paths ool_ops]; [reflexivity|].
  set (c1 := set_masm (bind (ool_label i) (masm c)) c).
  pose proof (OutOfLinePath_emit_masm path c1) as Hp.
  assert (Hok : fst (OutOfLinePath_emit path c1) = true) by now destruct path.
  destruct (OutOfLinePath_emit path c1) as [ok c2]. cbn [fst snd] in *.
  subst ok. cbn [negb]. rewrite IH, Hp.
  rewrite appends_app. reflexivity.
Qed.

Lemma emit_timeout_thunks_masm (jumps : list BackwardJump) (c : Compiler) :
  masm (snd (emit_timeout_thunks jumps c)) = appends (thunk_ops jumps) (masm c).
Proof.
  revert c. induction jumps as [|jump jumps IH]; intros c;
    cbn [emit_timeout_thunks thunk_ops map]; [reflexivity|].
  match goal with
  | |- context [emit_timeout_thunks jumps ?c2] =>
      pose proof (IH c2) as H; destruct (emit_timeout_thunks jumps c2)
  end.
  cbn [snd] in *. rewrite H. reflexivity.
Qed.

Lemma emit_backward_jump_thunks_masm (c : Compiler) :
  masm (emit_backward_jump_thunks c) =
  appends (thunk_ops (backward_jumps_ c)) (masm c).
Proof.
  unfold emit_backward_jump_thunks.
  pose proof (emit_timeout_thunks_masm (backward_jumps_ c) c) as H.
  now destruct (emit_timeout_thunks (backward_jumps_ c) c).
Qed.

End LayoutFacts.

Section BindFacts.
Context {arch : Arch} {backend : Backend}.

Lemma jump_binds_app (a b : list AsmOp) :
  jump_binds (a ++ b) = jump_binds a ++ jump_binds b.
Proof. apply flat_map_app. Qed.

Lemma ool_binds_app (a b : list AsmOp) :
  ool_binds (a ++ b) = ool_binds a ++ ool_binds b.
Proof. apply flat_map_app. Qed.

Lemma throw_binds_app (a b : list AsmOp) :
  throw_binds (a ++ b) = throw_binds a ++ throw_binds b.
Proof. apply flat_map_app. Qed.

Lemma no_driver_bind_binds (ops : list AsmOp) :
  forallb no_driver_bind ops = true ->
  jump_binds ops = [] /\ ool_binds ops = [] /\ throw_binds ops = [].
Proof.
  induction ops as [|op ops IH]; [auto|]. cbn [forallb].
  intros H. apply andb_prop in H as [H1 H2].
  destruct (IH H2) as (Hj & Ho & Ht).
  unfold jump_binds, ool_binds, throw_binds in *. cbn [flat_map].
  rewrite Hj, Ho, Ht.
  destruct op as [l| | | | |]; try (repeat split; reflexivity).
  destruct l; try discriminate. repeat split; reflexivity.
Qed.

Lemma emit_action_ops_no_driver_bind (acts : list EmitAction) :
  forallb no_driver_bind (flat_map emit_action_ops acts) = true.
Proof.
  induction acts as [|a acts IH]; [reflexivity|]. cbn [flat_map].
  rewrite forallb_app, IH, andb_true_r. now destruct a.
Qed.

Lemma visit_action_ops_no_driver_bind (acts : list VisitAction) :
  forallb no_driver_bind (flat_map visit_action_ops acts) = true.
Proof.
  induction acts as [|a acts IH]; [reflexivity|]. cbn [flat_map].
  rewrite forallb_app, IH, andb_true_r.
  destruct a as [a| |]; try reflexivity. now destruct a.
Qed.

Lemma path_ops_no_driver_bind (path : OutOfLinePath) (c : Compiler) :
  forallb no_driver_bind (path_ops path c) = true.
Proof.
  destruct path; cbn [path_ops]; [reflexivity|].
  apply emit_action_ops_no_driver_bind.
Qed.

Lemma thunk_ops_no_driver_bind (jumps : list BackwardJump) :
  forallb no_driver_bind (thunk_ops jumps) = true.
Proof. induction jumps; [reflexivity | exact IHjumps]. Qed.

(** The binds of one iteration of the decode loop. *)
Lemma visit_ops_binds (v : Visit) :
  jump_binds (visit_ops v) = [cip (v_reader v)] /\
  ool_binds (visit_ops v) = [] /\ throw_binds (visit_ops v) = [].
Proof.
  unfold visit_ops.
  match goal with
  | |- context [flat_map visit_action_ops ?acts] =>
      destruct (no_driver_bind_binds _ (visit_action_ops_no_driver_bind acts))
        as (Hj & Ho & Ht)
  end.
  unfold jump_binds, ool_binds, throw_binds in *. cbn [flat_map].
  now rewrite Hj, Ho, Ht.
Qed.

Lemma visits_ops_binds (visits : list Visit) :
  jump_binds (flat_map visit_ops visits) =
    map (fun v => cip (v_reader v)) visits /\
  ool_binds (flat_map visit_ops visits) = [] /\
  throw_binds (flat_map visit_ops visits) = [].
Proof.
  induction visits as [|v visits (Hj & Ho & Ht)]; [auto|].
  cbn [flat_map map].
  rewrite jump_binds_app, ool_binds_app, throw_binds_app, Hj, Ho, Ht.
  destruct (visit_ops_binds v) as (-> & -> & ->). auto.
Qed.

(** The binds of the out-of-line loop: the labels of the paths, in
    registration order. *)
Lemma ool_ops_binds (paths : list OutOfLinePath) (i : nat) (c : Compiler) :
  jump_binds (ool_ops i paths c) = [] /\
  ool_binds (ool_ops i paths c) = seq i (length paths) /\
  throw_binds (ool_ops i paths c) = [].
Proof.
  revert i c. induction paths as [|path paths IH]; intros i c;
    cbn [ool_ops length seq]; [auto|].
  match goal with
  | |- context [ool_ops (S i) paths ?c2] =>
      destruct (IH (S i) c2) as (Hj & Ho & Ht)
  end.
  rewrite jump_binds_app, ool_binds_app, throw_binds_app, Hj, Ho, Ht.
  match goal with
  | |- context [path_ops path ?c1] =>
      destruct (no_driver_bind_binds _ (path_ops_no_driver_bind path c1))
        as (Hj' & Ho' & Ht')
  end.
  unfold jump_binds, ool_binds, throw_binds in *. cbn [flat_map].
  rewrite Hj', Ho', Ht'. auto.
Qed.

(** The binds of the shared error paths: the used ones, in the order of
    the list. *)
Lemma throw_paths_binds (m : Assembler) (errs : list Z) :
  jump_binds (flat_map (throw_path_if_used m) errs) = [] /\
  ool_binds (flat_map (throw_path_if_used m) errs) = [] /\
  throw_binds (flat_map (throw_path_if_used m) errs) =
    filter (fun err => used (labels m (throw_error_code_ err))) errs.
Proof.
  induction errs as [|err errs (Hj & Ho & Ht)]; [auto|].
  cbn [flat_map filter].
  rewrite jump_binds_app, ool_binds_app, throw_binds_app, Hj, Ho, Ht.
  assert (H : throw_path_if_used m err =
              if used (labels m (throw_error_code_ err))
              then throw_path_ops err else []) by reflexivity.
  rewrite H. destruct (used (labels m (throw_error_code_ err))); auto.
Qed.

End BindFacts.

Section EmitLayout.
Context {arch : Arch} {backend : Backend}.

Lemma after_decode_loop_masm (c : Compiler) :
  masm (after_decode_loop c) =
  appends (flat_map visit_ops (run_visits c)) (masm (after_prologue c)).
Proof.
  unfold after_decode_loop, run_decode_loop, run_visits.
  destruct (decode_loop _ _ _) as [[exit r'] c'] eqn:E. cbn [snd].
  eapply decode_loop_masm, E.
Qed.

Lemma before_throw_paths_eq (c : Compiler) :
  before_throw_paths c =
  emit_backward_jump_thunks
    (snd (emit_ool_paths 0 (ool_paths_ (after_decode_loop c))
                         (after_decode_loop c))).
Proof. reflexivity. Qed.

Lemma before_throw_paths_masm (c : Compiler) :
  masm (before_throw_paths c) =
  appends (flat_map emit_action_ops (emitPrologue c) ++
           flat_map visit_ops (run_visits c) ++
           ool_ops 0 (ool_paths_ (after_decode_loop c)) (after_decode_loop c) ++
           thunk_ops (backward_jumps_ (after_decode_loop c)))
          (masm c).
Proof.
  rewrite before_throw_paths_eq, emit_backward_jump_thunks_masm.
  rewrite emit_ool_paths_backward_jumps, emit_ool_paths_masm.
  rewrite after_decode_loop_masm. unfold after_prologue.
  rewrite masm_run_emit. rewrite !appends_app. reflexivity.
Qed.

(** The compiler at the last [if (error_)] holds the buffer it started
    with followed by the six phases. *)
Lemma emit_tail_masm (c : Compiler) :
  masm (snd (emit_tail (after_decode_loop c))) =
  appends (emit_layout c) (masm c).
Proof.
  rewrite emit_tail_after_throw_paths. cbn [snd].
  rewrite masm_run_emit. unfold emit_layout. rewrite !appends_app.
  f_equal. rewrite after_throw_paths_eq.
  rewrite emit_throw_paths_masm by apply throw_path_errors_NoDup.
  f_equal. rewrite before_throw_paths_masm, !appends_app. reflexivity.
Qed.

Lemma emit_Some_buffer (c c' : Compiler) (fn : CompiledFunction) :
  emit c = (Some fn, c') ->
  buffer (masm c') = buffer (masm c) ++ emit_layout c.
Proof.
  intros He. apply emit_Some in He as (_ & -> & _).
  pose proof (emit_tail_masm c) as H.
  rewrite emit_tail_after_throw_paths in H. cbn [snd] in H.
  now rewrite H, buffer_appends.
Qed.

Lemma emit_layout_binds (c : Compiler) :
  jump_binds (emit_layout c) = map (fun v => cip (v_reader v)) (run_visits c) /\
  ool_binds (emit_layout c) = seq 0 (length (ool_paths_ (after_decode_loop c))) /\
  throw_binds (emit_layout c) = used_throw_paths (masm (before_throw_paths c)).
Proof.
  unfold emit_layout, used_throw_paths.
  rewrite !jump_binds_app, !ool_binds_app, !throw_binds_app.
  destruct (no_driver_bind_binds _ (emit_action_ops_no_driver_bind (emitPrologue c)))
    as (-> & -> & ->).
  destruct (visits_ops_binds (run_visits c)) as (-> & -> & ->).
  destruct (ool_ops_binds (ool_paths_ (after_decode_loop c)) 0 (after_decode_loop c))
    as (-> & -> & ->).
  destruct (no_driver_bind_binds _
              (thunk_ops_no_driver_bind (backward_jumps_ (after_decode_loop c))))
    as (-> & -> & ->).
  destruct (throw_paths_binds (masm (before_throw_paths c)) throw_path_errors)
    as (-> & -> & ->).
  destruct (no_driver_bind_binds _
              (emit_action_ops_no_driver_bind
                 (emitErrorHandlers (after_throw_paths c))))
    as (-> & -> & ->).
  cbn [app]. now rewrite !app_nil_r.
Qed.

(** X1: the code of a successful compile is what the compiler held at the
    start followed by, in this order, the prologue, for each visited
    instruction the bind of its jump-map label and its visitor's code,
    the out-of-line paths (each behind its label), one call to the
    timeout path per backward jump, the used shared error paths, and the
    error handlers. *)
Theorem emit_lays_out_phases_in_order
  (c c' : Compiler) (fn : CompiledFunction) :
  emit c = (Some fn, c') ->
  buffer (masm c') =
    buffer (masm c) ++
    flat_map emit_action_ops (emitPrologue c) ++
    flat_map visit_ops (run_visits c) ++
    ool_ops 0 (ool_paths_ (after_decode_loop c)) (after_decode_loop c) ++
    thunk_ops (backward_jumps_ (after_decode_loop c)) ++
    flat_map (throw_path_if_used (masm (before_throw_paths c)))
             throw_path_errors ++
    flat_map emit_action_ops (emitErrorHandlers (after_throw_paths c)).
Proof. intros He. now apply emit_Some_buffer in He. Qed.

End EmitLayout.

(** ** Which labels a compile binds *)

Section BoundLabels.
Context {arch : Arch} {backend : Backend}.

Lemma emit_new_buffer (code : list cell_t) (pcode_offs : Z)
      (c' : Compiler) (fn : CompiledFunction) :
  emit (new_Compiler code pcode_offs) = (Some fn, c') ->
  buffer (masm c') = emit_layout (new_Compiler code pcode_offs).
Proof. intros He. now apply emit_Some_buffer in He. Qed.

Lemma StronglySorted_lt_NoDup (l : list Z) :
  StronglySorted Z.lt l -> NoDup l.
Proof.
  induction 1 as [|x l Hs IH Hx]; constructor; [|exact IH].
  intros Hin. rewrite Forall_forall in Hx. specialize (Hx _ Hin). lia.
Qed.

(** The reader only moves forward: the visited cips increase. *)
Lemma decode_visits_increasing (fuel : nat) (r : PcodeReader) (c : Compiler) :
  StronglySorted Z.lt (map (fun v => cip (v_reader v)) (decode_visits fuel r c)).
Proof.
  revert r c. induction fuel as [|fuel IH]; intros r c;
    cbn [decode_visits]; [constructor|].
  destruct (more r); [|constructor].
  destruct (is_boundary (peekOpcode r)); [constructor|].
  destruct (visitNext r (before_visit r c)) as [[ok r1] c1] eqn:Ev.
  apply visitNext_reader in Ev as [_ Hcip].
  destruct (negb ok || negb (error_ c1 =? 0)); cbn [map v_reader].
  - constructor; constructor.
  - constructor; [apply IH|].
    destruct (decode_loop fuel r1 c1) as [[exit r'] c'] eqn:E.
    destruct (decode_loop_visits _ _ _ _ _ _ E) as (Hv & _).
    rewrite Forall_map. eapply Forall_impl; [|exact Hv]. cbv beta.
    intros v (_ & _ & Hle & _). unfold cip. lia.
Qed.

(** Every visited instruction lies inside the code segment. *)
Lemma run_visits_in_code (c : Compiler) :
  Forall (fun v => (cip_ (v_reader v) < length (rt_code c))%nat) (run_visits c).
Proof.
  unfold run_visits.
  destruct (decode_loop (cells_left (reader_at_start c)) (reader_at_start c)
                        (after_prologue c)) as [[exit r'] c'] eqn:E.
  destruct (decode_loop_visits _ _ _ _ _ _ E) as (Hv & _).
  eapply Forall_impl; [|exact Hv]. cbv beta.
  intros v (Hm & _ & _ & Hc). unfold more in Hm.
  apply Nat.ltb_lt in Hm. now rewrite Hc in Hm.
Qed.

Lemma nmaxops_length (code : list cell_t) :
  nmaxops code = Z.of_nat (length code) + 1.
Proof.
  unfold nmaxops, sizeof_cell_t.
  now rewrite Z.mul_comm, Z.div_mul by discriminate.
Qed.

Lemma appends_binds (ops : list AsmOp) (m : Assembler) (l : LabelId) :
  In (OpBind l) ops -> bound (labels (appends ops m) l) = true.
Proof.
  revert m. induction ops as [|op ops IH]; intros m; [intros []|].
  intros [->|Hin]; rewrite appends_cons.
  - apply appends_keeps_bound.
    change (append (OpBind l) m) with (bind l m). now rewrite bind_binds.
  - now apply IH.
Qed.

Lemma appends_leaves_unbound (ops : list AsmOp) (m : Assembler) (l : LabelId) :
  ~ In (OpBind l) ops ->
  bound (labels m l) = false -> bound (labels (appends ops m) l) = false.
Proof.
  revert m. induction ops as [|op ops IH]; intros m Hn Hb; [exact Hb|].
  rewrite appends_cons. apply IH; [intros H; apply Hn; now right|].
  destruct op as [k|k|k| | |]; cbn [append labels]; try exact Hb.
  - rewrite set_label_other; [exact Hb|].
    intros ->. apply Hn. now left.
  - now rewrite add_pending_bound.
  - now rewrite add_pending_bound.
Qed.

Lemma LabelId_eq_dec (a b : LabelId) : {a = b} + {a <> b}.
Proof.
  destruct (LabelId_eqb a b) eqn:E.
  - left. now apply LabelId_eqb_eq.
  - right. intros ->. now rewrite LabelId_eqb_refl in E.
Qed.

Lemma AsmOp_eq_dec (a b : AsmOp) : {a = b} + {a <> b}.
Proof.
  decide equality; try apply LabelId_eq_dec; try apply Z.eq_dec.
  apply list_eq_dec, Z.eq_dec.
Qed.

Lemma in_jump_binds (ops : list AsmOp) (idx : Z) :
  In idx (jump_binds ops) <-> In (OpBind (jump_map_ idx)) ops.
Proof.
  unfold jump_binds. rewrite in_flat_map. split.
  - intros (op & Hin & Hop).
    destruct op as [l| | | | |]; try contradiction.
    destruct l; try contradiction. destruct Hop as [<-|[]]. exact Hin.
  - intros H. eexists. split; [exact H|]. now left.
Qed.

Lemma in_ool_binds (ops : list AsmOp) (i : nat) :
  In i (ool_binds ops) <-> In (OpBind (ool_label i)) ops.
Proof.
  unfold ool_binds. rewrite in_flat_map. split.
  - intros (op & Hin & Hop).
    destruct op as [l| | | | |]; try contradiction.
    destruct l; try contradiction. destruct Hop as [<-|[]]. exact Hin.
  - intros H. eexists. split; [exact H|]. now left.
Qed.

Lemma in_throw_binds (ops : list AsmOp) (err : Z) :
  In err (throw_binds ops) <-> In (OpBind (throw_error_code_ err)) ops.
Proof.
  unfold throw_binds. rewrite in_flat_map. split.
  - intros (op & Hin & Hop).
    destruct op as [l| | | | |]; try contradiction.
    destruct l; try contradiction. destruct Hop as [<-|[]]. exact Hin.
  - intros H. eexists. split; [exact H|]. now left.
Qed.

(** X2: in the code of a successful compile the jump-map labels that are
    bound are those of the visited instructions, one bind each, in
    increasing cip order: no label of the jump map is bound twice, and
    none is bound for a cell the reader did not visit. *)
Theorem jump_map_bound_once_per_instruction
  (code : list cell_t) (pcode_offs : Z) (c' : Compiler) (fn : CompiledFunction) :
  emit (new_Compiler code pcode_offs) = (Some fn, c') ->
  jump_binds (buffer (masm c')) =
    map (fun v => cip (v_reader v)) (run_visits (new_Compiler code pcode_offs)) /\
  StronglySorted Z.lt (jump_binds (buffer (masm c'))) /\
  NoDup (jump_binds (buffer (masm c'))) /\
  (forall idx, bound (labels (masm c') (jump_map_ idx)) = true <->
               exists v, In v (run_visits (new_Compiler code pcode_offs)) /\
                         cip (v_reader v) = idx).
Proof.
  intros He. pose proof (emit_new_buffer _ _ _ _ He) as Hbuf.
  pose proof (emit_Some_buffer _ _ _ He) as Hb0.
  destruct (emit_layout_binds (new_Compiler code pcode_offs)) as (Hj & _ & _).
  rewrite Hbuf, Hj.
  assert (Hs : StronglySorted Z.lt
                 (map (fun v => cip (v_reader v))
                      (run_visits (new_Compiler code pcode_offs))))
    by apply decode_visits_increasing.
  split; [reflexivity|]. split; [exact Hs|].
  split; [now apply StronglySorted_lt_NoDup|].
  assert (Hm : masm c' = appends (emit_layout (new_Compiler code pcode_offs))
                                 new_masm).
  { apply emit_Some in He as (_ & -> & _).
    pose proof (emit_tail_masm (new_Compiler code pcode_offs)) as H.
    now rewrite emit_tail_after_throw_paths in H. }
  intros idx. split.
  - intros Hbd.
    destruct (in_dec AsmOp_eq_dec (OpBind (jump_map_ idx))
                     (emit_layout (new_Compiler code pcode_offs)))
      as [Hin|Hn].
    + apply in_jump_binds in Hin. rewrite Hj in Hin.
      apply in_map_iff in Hin as (v & Hv & Hin). now exists v.
    + rewrite Hm in Hbd.
      rewrite (appends_leaves_unbound _ _ _ Hn) in Hbd;
        [discriminate|reflexivity].
  - intros (v & Hin & <-). rewrite Hm. apply appends_binds.
    apply in_jump_binds. rewrite Hj. apply in_map_iff. now exists v.
Qed.

End BoundLabels.

Section OutOfLineAndThrow.
Context {arch : Arch} {backend : Backend}.

Lemma emit_ool_paths_ool_paths (paths : list OutOfLinePath) (i : nat)
      (c : Compiler) :
  ool_paths_ (snd (emit_ool_paths i paths c)) = ool_paths_ c.
Proof.
  revert i c. induction paths as [|path paths IH]; intros i c;
    cbn [emit_ool_paths]; [reflexivity|].
  destruct path as [pcip err|pcip bounds];
    cbn [OutOfLinePath_emit negb]; rewrite IH.
  - unfold emitErrorPath. now destruct (err =? 0).
  - now destruct (run_emit_registries
                    (emitOutOfBoundsErrorPath pcip bounds
                       (set_masm (bind (ool_label i) (masm c)) c))
                    (set_masm (bind (ool_label i) (masm c)) c))
      as (-> & _).
Qed.

Lemma emit_timeout_thunks_ool_paths (jumps : list BackwardJump) (c : Compiler) :
  ool_paths_ (snd (emit_timeout_thunks jumps c)) = ool_paths_ c.
Proof.
  revert c. induction jumps as [|jump jumps IH]; intros c;
    cbn [emit_timeout_thunks]; [reflexivity|].
  match goal with
  | |- context [emit_timeout_thunks jumps ?c2] =>
      pose proof (IH c2) as H; destruct (emit_timeout_thunks jumps c2)
  end.
  cbn [snd] in *. now rewrite H.
Qed.

Lemma emit_throw_paths_ool_paths (errs : list Z) (c : Compiler) :
  ool_paths_ (emit_throw_paths errs c) = ool_paths_ c.
Proof.
  unfold emit_throw_paths. revert c.
  induction errs as [|err errs IH]; intros c; cbn [fold_left]; [reflexivity|].
  rewrite IH. unfold emitThrowPathIfNeeded. now destruct (negb _).
Qed.

(** The tail of [emit] leaves the registry of out-of-line paths as the
    decode loop filled it. *)
Lemma emit_Some_ool_paths (c c' : Compiler) (fn : CompiledFunction) :
  emit c = (Some fn, c') -> ool_paths_ c' = ool_paths_ (after_decode_loop c).
Proof.
  intros He. apply emit_Some in He as (_ & -> & _).
  destruct (run_emit_registries (emitErrorHandlers (after_throw_paths c))
                                (after_throw_paths c)) as (-> & _).
  rewrite after_throw_paths_eq, emit_throw_paths_ool_paths.
  rewrite before_throw_paths_eq. unfold emit_backward_jump_thunks.
  match goal with
  | |- context [emit_timeout_thunks ?js ?c2] =>
      pose proof (emit_timeout_thunks_ool_paths js c2) as H;
      destruct (emit_timeout_thunks js c2)
  end.
  cbn [snd] in H. cbn [ool_paths_ set_backward_jumps]. rewrite H.
  apply emit_ool_paths_ool_paths.
Qed.

Lemma emit_new_masm (code : list cell_t) (pcode_offs : Z)
      (c' : Compiler) (fn : CompiledFunction) :
  emit (new_Compiler code pcode_offs) = (Some fn, c') ->
  masm c' = appends (emit_layout (new_Compiler code pcode_offs)) new_masm.
Proof.
  intros He. apply emit_Some in He as (_ & -> & _).
  pose proof (emit_tail_masm (new_Compiler code pcode_offs)) as H.
  now rewrite emit_tail_after_throw_paths in H.
Qed.

(** X3: every instruction the decode loop visits has its jump-map index
    inside the array the constructor allocated:
    [0 <= cip - codeseg < nmaxops], and indeed below the number of cells
    of the code segment. *)
Theorem jump_map_index_in_bounds (c : Compiler) (v : Visit) :
  In v (run_visits c) ->
  0 <= cip (v_reader v) < Z.of_nat (length (rt_code c)) /\
  cip (v_reader v) < nmaxops (rt_code c) - 1.
Proof.
  intros Hin. pose proof (run_visits_in_code c) as H.
  rewrite Forall_forall in H. specialize (H _ Hin).
  rewrite nmaxops_length. unfold cip. lia.
Qed.

(** X4: in the code of a successful compile the labels of the out-of-line
    paths are bound once each, in registration order, and every
    registered path has its label bound. *)
Theorem out_of_line_labels_bound_in_order
  (code : list cell_t) (pcode_offs : Z) (c' : Compiler) (fn : CompiledFunction) :
  emit (new_Compiler code pcode_offs) = (Some fn, c') ->
  ool_binds (buffer (masm c')) = seq 0 (length (ool_paths_ c')) /\
  (forall i, (i < length (ool_paths_ c'))%nat ->
             bound (labels (masm c') (ool_label i)) = true).
Proof.
  intros He.
  pose proof (emit_new_buffer _ _ _ _ He) as Hbuf.
  pose proof (emit_new_masm _ _ _ _ He) as Hm.
  pose proof (emit_Some_ool_paths _ _ _ He) as Hp.
  destruct (emit_layout_binds (new_Compiler code pcode_offs)) as (_ & Ho & _).
  rewrite Hbuf, Ho, Hp. split; [reflexivity|].
  intros i Hi. rewrite Hm. apply appends_binds, in_ool_binds.
  rewrite Ho. apply in_seq. lia.
Qed.

Lemma throw_paths_of_used (m : Assembler) (errs : list Z) :
  flat_map (throw_path_if_used m) errs =
  flat_map throw_path_ops
    (filter (fun err => used (labels m (throw_error_code_ err))) errs).
Proof.
  induction errs as [|err errs IH]; [reflexivity|].
  cbn [flat_map filter]. rewrite IH.
  assert (H : throw_path_if_used m err =
              if used (labels m (throw_error_code_ err))
              then throw_path_ops err else []) by reflexivity.
  rewrite H. now destruct (used (labels m (throw_error_code_ err))).
Qed.

Lemma before_throw_paths_throw_binds (c : Compiler) :
  throw_binds (buffer (masm c)) = [] ->
  throw_binds (buffer (masm (before_throw_paths c))) = [].
Proof.
  intros H0. rewrite before_throw_paths_masm, buffer_appends.
  rewrite !throw_binds_app, H0.
  destruct (no_driver_bind_binds _ (emit_action_ops_no_driver_bind (emitPrologue c)))
    as (_ & _ & ->).
  destruct (visits_ops_binds (run_visits c)) as (_ & _ & ->).
  destruct (ool_ops_binds (ool_paths_ (after_decode_loop c)) 0 (after_decode_loop c))
    as (_ & _ & ->).
  destruct (no_driver_bind_binds _
              (thunk_ops_no_driver_bind (backward_jumps_ (after_decode_loop c))))
    as (_ & _ & ->).
  reflexivity.
Qed.

(** X5: the shared error paths of a successful compile are those of the
    fixed list whose label is used when [emit] reaches them, laid down
    whole (bind of the label, move of the code, jump to the report-error
    routine) in the order of the list, each once, between the code
    emitted before them and the error handlers, neither of which binds a
    slot of the table; a path is only there for a code that some earlier
    site references. *)
Theorem shared_error_paths_once_in_order
  (code : list cell_t) (pcode_offs : Z) (c' : Compiler) (fn : CompiledFunction) :
  emit (new_Compiler code pcode_offs) = (Some fn, c') ->
  buffer (masm c') =
    buffer (masm (before_throw_paths (new_Compiler code pcode_offs))) ++
    flat_map (fun err => [OpBind (throw_error_code_ err); OpMovErr err;
                          OpJump (backend_label report_error_)])
             (used_throw_paths
                (masm (before_throw_paths (new_Compiler code pcode_offs)))) ++
    flat_map emit_action_ops
      (emitErrorHandlers (after_throw_paths (new_Compiler code pcode_offs))) /\
  throw_binds (buffer (masm (before_throw_paths (new_Compiler code pcode_offs))))
    = [] /\
  throw_binds (flat_map emit_action_ops
                 (emitErrorHandlers
                    (after_throw_paths (new_Compiler code pcode_offs)))) = [] /\
  throw_binds (buffer (masm c')) =
    used_throw_paths (masm (before_throw_paths (new_Compiler code pcode_offs))) /\
  NoDup (throw_binds (buffer (masm c'))) /\
  (forall err, In err (throw_binds (buffer (masm c'))) ->
     In err throw_path_errors /\
     referenced (throw_error_code_ err)
       (buffer (masm (before_throw_paths (new_Compiler code pcode_offs))))).
Proof.
  intros He. pose proof (emit_new_buffer _ _ _ _ He) as Hbuf.
  destruct (emit_layout_binds (new_Compiler code pcode_offs)) as (_ & _ & Ht).
  split; [|split; [|split]].
  - apply emit_Some in He as (_ & -> & _).
    rewrite masm_run_emit, buffer_appends, after_throw_paths_eq.
    rewrite emit_throw_paths_masm by apply throw_path_errors_NoDup.
    rewrite buffer_appends, throw_paths_of_used, <- app_assoc. reflexivity.
  - now apply before_throw_paths_throw_binds.
  - now destruct (no_driver_bind_binds _
                    (emit_action_ops_no_driver_bind
                       (emitErrorHandlers
                          (after_throw_paths (new_Compiler code pcode_offs)))))
      as (_ & _ & ->).
  - rewrite Hbuf, Ht. unfold used_throw_paths.
    split; [reflexivity|]. split.
    + apply NoDup_filter, throw_path_errors_NoDup.
    + intros err Hin. apply filter_In in Hin as [Hin Hu]. split; [exact Hin|].
      now apply (before_throw_paths_pending code pcode_offs err).
Qed.

(** X6: for an error code outside the fixed list the slot of the
    error-path table is never bound by a compile, whether or not a site
    references it: such a reference is left unresolved. *)
Theorem unlisted_error_slot_never_bound
  (code : list cell_t) (pcode_offs err : Z) (c' : Compiler) (fn : CompiledFunction) :
  emit (new_Compiler code pcode_offs) = (Some fn, c') ->
  ~ In err throw_path_errors ->
  ~ throw_path_emitted err (buffer (masm c')) /\
  bound (labels (masm c') (throw_error_code_ err)) = false.
Proof.
  intros He Hn.
  pose proof (emit_new_buffer _ _ _ _ He) as Hbuf.
  pose proof (emit_new_masm _ _ _ _ He) as Hm.
  destruct (emit_layout_binds (new_Compiler code pcode_offs)) as (_ & _ & Ht).
  assert (Hnot : ~ In (OpBind (throw_error_code_ err))
                      (emit_layout (new_Compiler code pcode_offs))).
  { rewrite <- in_throw_binds, Ht. unfold used_throw_paths.
    intros Hin. apply filter_In in Hin as [Hin _]. contradiction. }
  split.
  - unfold throw_path_emitted. now rewrite Hbuf.
  - rewrite Hm. now apply appends_leaves_unbound.
Qed.

Lemma ool_ops_error_path (paths : list OutOfLinePath) (i : nat) (c : Compiler)
      (pcip err : Z) :
  In (ErrorPath pcip err) paths ->
  In (OpCall (error_path_target err)) (ool_ops i paths c).
Proof.
  revert i c. induction paths as [|path paths IH]; intros i c; [intros []|].
  intros [->|Hin]; cbn [ool_ops].
  - apply in_or_app. left. cbn [path_ops]. right. right. now left.
  - apply in_or_app. right. now apply IH.
Qed.

(** X7: when the decode loop registered an [ErrorPath] for an error code
    of the fixed list, a successful compile contains the call the
    out-of-line path makes to the slot of that code and the whole shared
    path of that code (bind of the label, move of the code, jump to the
    report-error routine), and the label is bound: the call has its
    target. *)
Theorem registered_error_path_has_its_shared_path
  (code : list cell_t) (pcode_offs pcip err : Z)
  (c' : Compiler) (fn : CompiledFunction) :
  emit (new_Compiler code pcode_offs) = (Some fn, c') ->
  In (ErrorPath pcip err) (ool_paths_ c') ->
  In err throw_path_errors ->
  In (OpCall (throw_error_code_ err)) (buffer (masm c')) /\
  contains [OpBind (throw_error_code_ err); OpMovErr err;
            OpJump (backend_label report_error_)] (buffer (masm c')) /\
  throw_path_emitted err (buffer (masm c')) /\
  bound (labels (masm c') (throw_error_code_ err)) = true.
Proof.
  intros He Hp Herr.
  pose proof (emit_new_buffer _ _ _ _ He) as Hbuf.
  pose proof (emit_new_masm _ _ _ _ He) as Hm.
  rewrite (emit_Some_ool_paths _ _ _ He) in Hp.
  assert (Htarget : error_path_target err = throw_error_code_ err).
  { unfold error_path_target.
    destruct (err =? 0) eqn:E; [|reflexivity].
    apply Z.eqb_eq in E. subst err. exfalso.
    unfold throw_path_errors in Herr. simpl in Herr.
    repeat destruct Herr as [Herr|Herr]; try discriminate Herr; contradiction. }
  pose proof (ool_ops_error_path _ 0
                (after_decode_loop (new_Compiler code pcode_offs)) _ _ Hp) as Hcall.
  rewrite Htarget in Hcall.
  assert (Href : referenced (throw_error_code_ err)
                   (buffer (masm (before_throw_paths
                                    (new_Compiler code pcode_offs))))).
  { exists (OpCall (throw_error_code_ err)). split; [|reflexivity].
    rewrite before_throw_paths_masm, buffer_appends.
    apply in_or_app. right. apply in_or_app. right. apply in_or_app. right.
    apply in_or_app. now left. }
  destruct (before_throw_paths_pending code pcode_offs err) as (_ & Hn & Hu).
  assert (Huse : used (labels (masm (before_throw_paths
                                       (new_Compiler code pcode_offs)))
                              (throw_error_code_ err)) = true)
    by (apply (proj2 Hu), Href).
  assert (Hused : In err (throw_binds
                            (emit_layout (new_Compiler code pcode_offs)))).
  { destruct (emit_layout_binds (new_Compiler code pcode_offs)) as (_ & _ & ->).
    unfold used_throw_paths. apply filter_In. now split. }
  apply in_throw_binds in Hused.
  split; [|split; [|split]].
  - rewrite Hbuf. unfold emit_layout.
    apply in_or_app. right. apply in_or_app. right. apply in_or_app. now left.
  - change [OpBind (throw_error_code_ err); OpMovErr err;
            OpJump (backend_label report_error_)] with (throw_path_ops err).
    apply emit_Some in He as (_ & -> & _).
    apply run_emit_contains. rewrite after_throw_paths_eq.
    apply (proj2 (emit_throw_paths_contains _ err Herr Hn)). exact Huse.
  - unfold throw_path_emitted. now rewrite Hbuf.
  - rewrite Hm. now apply appends_binds.
Qed.

End OutOfLineAndThrow.

(** ** When [emit] succeeds, and what it returns *)

Section EmitResult.
Context {arch : Arch} {backend : Backend}.

Lemma run_visit_image (acts : list VisitAction) (c : Compiler) :
  pcode_start_ (run_visit acts c) = pcode_start_ c /\
  rt_code (run_visit acts c) = rt_code c.
Proof.
  unfold run_visit. revert c.
  induction acts as [|a acts IH]; intros c; cbn [fold_left]; [auto|].
  destruct (IH (run_visit_action a c)) as [-> ->].
  destruct a as [a| |]; [now destruct a | auto | auto].
Qed.

Lemma decode_loop_image (fuel : nat) (r r' : PcodeReader) (c c' : Compiler)
      (exit : LoopExit) :
  decode_loop fuel r c = (exit, r', c') ->
  pcode_start_ c' = pcode_start_ c /\ rt_code c' = rt_code c.
Proof.
  revert r c. induction fuel as [|fuel IH]; intros r c; cbn [decode_loop].
  - now intros [= _ _ <-].
  - destruct (more r); [|now intros [= _ _ <-]].
    destruct (is_boundary (peekOpcode r)); [now intros [= _ _ <-]|].
    destruct (visitNext r (before_visit r c)) as [[ok r1] c1] eqn:Ev.
    unfold visitNext in Ev. injection Ev as _ _ Hc1.
    assert (H1 : pcode_start_ c1 = pcode_start_ c /\ rt_code c1 = rt_code c).
    { rewrite <- Hc1.
      match goal with
      | |- context [run_visit ?acts ?c0] =>
          destruct (run_visit_image acts c0) as [-> ->]
      end. auto. }
    destruct (negb ok || negb (error_ c1 =? 0)).
    + now intros [= _ _ <-].
    + intros H. destruct (IH _ _ H) as [-> ->]. exact H1.
Qed.

Lemma emit_ool_paths_image (paths : list OutOfLinePath) (i : nat) (c : Compiler) :
  pcode_start_ (snd (emit_ool_paths i paths c)) = pcode_start_ c /\
  rt_code (snd (emit_ool_paths i paths c)) = rt_code c.
Proof.
  revert i c. induction paths as [|path paths IH]; intros i c;
    cbn [emit_ool_paths]; [auto|].
  destruct path as [pcip err|pcip bounds]; cbn [OutOfLinePath_emit negb];
    match goal with
    | |- context [emit_ool_paths (S i) paths ?c2] =>
        destruct (IH (S i) c2) as [-> ->]
    end.
  - unfold emitErrorPath. now destruct (err =? 0).
  - now destruct (run_emit_registries
                    (emitOutOfBoundsErrorPath pcip bounds
                       (set_masm (bind (ool_label i) (masm c)) c))
                    (set_masm (bind (ool_label i) (masm c)) c))
      as (_ & _ & -> & ->).
Qed.

Lemma emit_timeout_thunks_image (jumps : list BackwardJump) (c : Compiler) :
  pcode_start_ (snd (emit_timeout_thunks jumps c)) = pcode_start_ c /\
  rt_code (snd (emit_timeout_thunks jumps c)) = rt_code c.
Proof.
  revert c. induction jumps as [|jump jumps IH]; intros c;
    cbn [emit_timeout_thunks]; [auto|].
  match goal with
  | |- context [emit_timeout_thunks jumps ?c2] =>
      pose proof (IH c2) as H; destruct (emit_timeout_thunks jumps c2)
  end.
  cbn [snd] in *. exact H.
Qed.

Lemma emit_throw_paths_image (errs : list Z) (c : Compiler) :
  pcode_start_ (emit_throw_paths errs c) = pcode_start_ c /\
  rt_code (emit_throw_paths errs c) = rt_code c.
Proof.
  unfold emit_throw_paths. revert c.
  induction errs as [|err errs IH]; intros c; cbn [fold_left]; [auto|].
  destruct (IH (emitThrowPathIfNeeded err c)) as [-> ->].
  unfold emitThrowPathIfNeeded. now destruct (negb _).
Qed.

(** A compile never changes the runtime's code or the offset it was
    started at. *)
Lemma emit_Some_image (c c' : Compiler) (fn : CompiledFunction) :
  emit c = (Some fn, c') ->
  pcode_start_ c' = pcode_start_ c /\ rt_code c' = rt_code c.
Proof.
  intros He. apply emit_Some in He as (_ & -> & _).
  destruct (run_emit_registries (emitErrorHandlers (after_throw_paths c))
                                (after_throw_paths c)) as (_ & _ & -> & ->).
  rewrite after_throw_paths_eq.
  destruct (emit_throw_paths_image throw_path_errors (before_throw_paths c))
    as [-> ->].
  rewrite before_throw_paths_eq. unfold emit_backward_jump_thunks.
  match goal with
  | |- context [emit_timeout_thunks ?js ?c2] =>
      pose proof (emit_timeout_thunks_image js c2) as H;
      destruct (emit_timeout_thunks js c2)
  end.
  cbn [snd] in H. cbn [pcode_start_ rt_code set_backward_jumps].
  destruct H as [-> ->].
  match goal with
  | |- context [emit_ool_paths 0 ?ps ?c1] =>
      destruct (emit_ool_paths_image ps 0 c1) as [-> ->]
  end.
  unfold after_decode_loop, run_decode_loop.
  destruct (decode_loop _ _ _) as [[exit r'] c1] eqn:E. cbn [snd].
  destruct (decode_loop_image _ _ _ _ _ _ E) as [-> ->].
  unfold after_prologue.
  now destruct (run_emit_registries (emitPrologue c) c) as (_ & _ & -> & ->).
Qed.

(** X8: [emit] returns a function exactly when no visitor fails, the
    error field is clear after every instruction and at the last check,
    and linking yields a chunk with a non-null address. *)
Theorem emit_succeeds_iff (c : Compiler) :
  fst (emit c) <> None <->
  ~ compile_fails_at c /\
  LinkCode (masm (snd (emit_tail (after_decode_loop c)))) <> 0.
Proof.
  split.
  - intros Hs. split.
    + intros Hf. now apply compile_fails_at_emit in Hf.
    + destruct (emit c) as [[fn|] c'] eqn:E; [|now contradiction Hs].
      apply emit_Some in E as (_ & Hc' & _ & Hl & _).
      rewrite emit_tail_after_throw_paths. cbn [snd]. now rewrite <- Hc'.
  - intros [Hnf Hl].
    unfold compile_fails_at, visitor_fails, error_field_set in Hnf.
    unfold emit, after_decode_loop, run_visits, run_decode_loop in *.
    destruct (decode_loop _ _ _) as [[exit r'] c1] eqn:E. cbn [fst snd] in *.
    assert (Hexit : exit <> LoopAbort).
    { intros ->.
      destruct (decode_loop_abort_visit _ _ _ _ _ E)
        as (v & Hin & _ & _ & _ & [Hf|Hf]); apply Hnf.
      - left. now exists v.
      - right. left. now exists v. }
    rewrite (emit_tail_eq c1) in *. cbn [negb snd] in *.
    set (c2 := run_emit _ _) in *.
    assert (Herr : error_ c2 = SP_ERROR_NONE).
    { destruct (Z.eq_dec (error_ c2) SP_ERROR_NONE) as [H|H]; [exact H|].
      exfalso. apply Hnf. right. right. auto. }
    unfold emit_link. unfold SP_ERROR_NONE in Herr. rewrite Herr. cbn [Z.eqb negb].
    apply Z.eqb_neq in Hl. rewrite Hl.
    now destruct exit.
Qed.

(** X9: the function a successful [emit] returns has a non-null entry
    address, the one linking gave; it records the p-code offset the
    compiler was created for and a copy of the cip map; and the error
    field is [SP_ERROR_NONE], as the [assert] before the return says. *)
Theorem emit_result (c c' : Compiler) (fn : CompiledFunction) :
  emit c = (Some fn, c') ->
  error_ c' = SP_ERROR_NONE /\
  GetEntryAddress fn = LinkCode (masm c') /\
  GetEntryAddress fn <> 0 /\
  cf_pcode_offs fn = pcode_start_ c /\
  cf_cipmap fn = cip_map_ c' /\
  rt_code c' = rt_code c.
Proof.
  intros He. destruct (emit_Some_image _ _ _ He) as [Hp Hr].
  apply emit_Some in He as (_ & _ & Herr & Hl & ->).
  unfold GetEntryAddress. cbn. auto 6.
Qed.

(** X10: when nothing fails up to the last check but linking returns a
    chunk with a null address, [emit] reports [SP_ERROR_OUT_OF_MEMORY] and
    returns no function, and [Compile] hands that code to its caller and
    leaves the method alone. *)
Theorem link_failure_is_out_of_memory
  (w : World) (key : Z) (method : MethodInfo) (err : Z) :
  ~ compile_fails_at (new_Compiler (code w) (pcode_offset method)) ->
  LinkCode (masm (snd (emit_tail (after_decode_loop
                         (new_Compiler (code w) (pcode_offset method)))))) = 0 ->
  fst (emit (new_Compiler (code w) (pcode_offset method))) = None /\
  error (snd (emit (new_Compiler (code w) (pcode_offset method)))) =
    SP_ERROR_OUT_OF_MEMORY /\
  Compile w key method err =
    (None, SP_ERROR_OUT_OF_MEMORY, log (RanCompile (pcode_offset method)) w).
Proof.
  intros Hnf Hl.
  assert (He : exists c', emit (new_Compiler (code w) (pcode_offset method)) =
                          (None, c') /\ error_ c' = SP_ERROR_OUT_OF_MEMORY).
  { generalize dependent (new_Compiler (code w) (pcode_offset method)).
    intros c Hnf Hl.
    unfold compile_fails_at, visitor_fails, error_field_set in Hnf.
    unfold emit, after_decode_loop, run_visits, run_decode_loop in *.
    destruct (decode_loop _ _ _) as [[exit r'] c1] eqn:E. cbn [fst snd] in *.
    assert (Hexit : exit <> LoopAbort).
    { intros ->.
      destruct (decode_loop_abort_visit _ _ _ _ _ E)
        as (v & Hin & _ & _ & _ & [Hf|Hf]); apply Hnf.
      - left. now exists v.
      - right. left. now exists v. }
    rewrite (emit_tail_eq c1) in *. cbn [negb snd] in *.
    set (c2 := run_emit _ _) in *.
    assert (Herr : error_ c2 = SP_ERROR_NONE).
    { destruct (Z.eq_dec (error_ c2) SP_ERROR_NONE) as [H|H]; [exact H|].
      exfalso. apply Hnf. right. right. auto. }
    exists (reportError SP_ERROR_OUT_OF_MEMORY c2). split; [|reflexivity].
    unfold emit_link. unfold SP_ERROR_NONE in Herr.
    rewrite Herr, Hl. cbn [Z.eqb negb]. now destruct exit. }
  destruct He as (c' & He & Herr).
  unfold Compile. rewrite He. cbn [fst snd]. unfold error. rewrite Herr. auto.
Qed.

End EmitResult.

(** ** More on the thunk patcher *)

Section ThunkMore.
Context {arch : Arch} {backend : Backend}.

(** X11: a method is compiled at most once.  When the first call for an
    uncompiled method compiles it, the method table holds the function
    from then on, and the next call for it stores the same entry address
    and patches without running the compile driver again. *)
Theorem CompileFromThunk_compiles_once
  (w : World) (pcode_offs addrp site addrp' site' : Z)
  (method : MethodInfo) (fn : CompiledFunction) (cc' : Compiler) :
  HandleInterrupt w = true ->
  AcquireMethod w pcode_offs = Some method ->
  Validate method = SP_ERROR_NONE ->
  jit method = None ->
  emit (new_Compiler (code w) (pcode_offset method)) = (Some fn, cc') ->
  let entry := GetEntryAddress fn in
  let '(status1, w1) := CompileFromThunk w pcode_offs addrp site in
  let '(status2, w2) := CompileFromThunk w1 pcode_offs addrp' site' in
  status1 = SP_ERROR_NONE /\ status2 = SP_ERROR_NONE /\
  AcquireMethod w1 pcode_offs = Some (setCompiledFunction fn method) /\
  AcquireMethod w2 pcode_offs = Some (setCompiledFunction fn method) /\
  effects w1 =
    effects w ++ [RanCompile (pcode_offset method);
                  SetCompiledFunction pcode_offs fn;
                  StoreEntry addrp entry; PatchedCall site entry] /\
  effects w2 = effects w1 ++ [StoreEntry addrp' entry; PatchedCall site' entry] /\
  pointers w1 addrp = entry /\ pointers w2 addrp' = entry /\
  call_sites w1 site = entry /\ call_sites w2 site' = entry.
Proof.
  intros Hi Ha Hv Hj He entry.
  unfold CompileFromThunk, AcquireMethod, Compile in *.
  rewrite Hi, Ha, Hv, Hj, He. cbn.
  rewrite Hi, !Z.eqb_refl. cbn. rewrite Hv. cbn.
  unfold update. rewrite !Z.eqb_refl. subst entry.
  repeat match goal with |- _ /\ _ => split end; try reflexivity.
  - now rewrite <- !app_assoc.
  - now rewrite <- (app_assoc _ [_] [_]).
Qed.



(** X13: a call touches nothing but the method it was asked for, the
    pointer it was given and the call site it was given; the code and the
    watchdog's answer are left alone, the method keeps its offset and its
    validation status, and the record of effects only grows. *)
Theorem CompileFromThunk_frame (w : World) (pcode_offs addrp site : Z) :
  let '(status, w') := CompileFromThunk w pcode_offs addrp site in
  code w' = code w /\ HandleInterrupt w' = HandleInterrupt w /\
  (forall k, k <> pcode_offs -> methods w' k = methods w k) /\
  (forall a, a <> addrp -> pointers w' a = pointers w a) /\
  (forall s, s <> site -> call_sites w' s = call_sites w s) /\
  (forall m, methods w pcode_offs = Some m ->
     exists m', methods w' pcode_offs = Some m' /\
                pcode_offset m' = pcode_offset m /\ Validate m' = Validate m) /\
  (methods w pcode_offs = None -> methods w' pcode_offs = None) /\
  exists added, effects w' = effects w ++ added.
Proof.
  assert (Hsame : forall st : Z,
            (let '(status, w') := (st, w) in
             code w' = code w /\ HandleInterrupt w' = HandleInterrupt w /\
             (forall k, k <> pcode_offs -> methods w' k = methods w k) /\
             (forall a, a <> addrp -> pointers w' a = pointers w a) /\
             (forall s, s <> site -> call_sites w' s = call_sites w s) /\
             (forall m, methods w pcode_offs = Some m ->
                exists m', methods w' pcode_offs = Some m' /\
                           pcode_offset m' = pcode_offset m /\
                           Validate m' = Validate m) /\
             (methods w pcode_offs = None -> methods w' pcode_offs = None) /\
             exists added, effects w' = effects w ++ added) : Prop).
  { intros st. repeat split; auto.
    - intros m Hm. now exists m.
    - exists []. now rewrite app_nil_r. }
  unfold CompileFromThunk.
  destruct (HandleInterrupt w) eqn:Hi; cbn [negb];
    [|apply (Hsame SP_ERROR_TIMEOUT)].
  destruct (AcquireMethod w pcode_offs) as [method|] eqn:Hm;
    [|apply (Hsame SP_ERROR_INVALID_ADDRESS)].
  unfold AcquireMethod in Hm.
  destruct (negb (Validate method =? SP_ERROR_NONE));
    [apply (Hsame (Validate method))|].
  assert (Hupd : forall (f : Z -> Z) k v x, x <> k -> update f k v x = f x).
  { intros f k v x Hx. unfold update.
    destruct (x =? k) eqn:E; [apply Z.eqb_eq in E; contradiction|reflexivity]. }
  destruct (jit method) as [fn|].
  - cbn. rewrite Hm.
    repeat match goal with |- _ /\ _ => split end; auto; try discriminate.
    + intros m [= <-]. now exists method.
    + eexists. now rewrite <- app_assoc.
  - unfold Compile.
    destruct (emit (new_Compiler (code w) (pcode_offset method))) as [[fn|] c'].
    + cbn. rewrite Z.eqb_refl, Hm.
      repeat match goal with |- _ /\ _ => split end; auto; try discriminate.
      * intros k Hk. destruct (k =? pcode_offs) eqn:E;
          [apply Z.eqb_eq in E; contradiction|reflexivity].
      * intros m [= <-]. now exists (setCompiledFunction fn method).
      * eexists. now rewrite <- !app_assoc.
    + cbn. rewrite Hm.
      repeat match goal with |- _ /\ _ => split end; auto; try discriminate.
      * intros m [= <-]. now exists method.
      * now eexists.
Qed.

(** X14: when the method cannot be acquired the call returns
    [SP_ERROR_INVALID_ADDRESS], and when validation fails it returns the
    validation status; in both cases the world is exactly as before: no
    compile, no store, no patch. *)
Theorem CompileFromThunk_rejects_before_compiling
  (w : World) (pcode_offs addrp site : Z) :
  HandleInterrupt w = true ->
  match AcquireMethod w pcode_offs with
  | None => True
  | Some method => Validate method <> SP_ERROR_NONE
  end ->
  CompileFromThunk w pcode_offs addrp site =
    (match AcquireMethod w pcode_offs with
     | None => SP_ERROR_INVALID_ADDRESS
     | Some method => Validate method
     end, w) /\
  fst (CompileFromThunk w pcode_offs addrp site) <> SP_ERROR_NONE.
Proof.
  intros Hi Hm. unfold CompileFromThunk. rewrite Hi. cbn [negb].
  destruct (AcquireMethod w pcode_offs) as [method|].
  - apply Z.eqb_neq in Hm as Hm'. rewrite Hm'. cbn [negb fst]. auto.
  - cbn [fst]. split; [reflexivity | discriminate].
Qed.

End ThunkMore.

(** ** More on the entry-frame walk *)

(** X15: when no frame of the walk is an [Entry] frame, [find_entry_fp]
    returns the [prev_fp] of the last frame walked when that is not null,
    and otherwise (an empty walk, or a null [prev_fp] in the last frame)
    its [assert(fp)] fails; and the frames from the first [Entry] frame on
    never matter: the outcome is that of the walk cut before it. *)
Theorem find_entry_fp_without_entry
  (pre : list FrameLayout) :
  Forall (fun f => frame_type f <> Entry) pre ->
  find_entry_fp pre =
    (if last (map prev_fp pre) 0 =? 0 then None
     else Some (last (map prev_fp pre) 0)) /\
  find_entry_fp [] = None /\
  forall e post, frame_type e = Entry ->
                 find_entry_fp (pre ++ e :: post) = find_entry_fp pre.
Proof.
  intros Hpre.
  assert (H : forall fp, find_entry_fp_loop pre fp = last (map prev_fp pre) fp).
  { induction Hpre as [|f pre Hf Hpre IH]; intros fp; [reflexivity|].
    change (map prev_fp (f :: pre)) with (prev_fp f :: map prev_fp pre).
    rewrite last_cons_default. cbn [find_entry_fp_loop].
    destruct (frame_type f); try congruence; apply IH. }
  unfold find_entry_fp. rewrite H. split; [reflexivity|].
  split; [reflexivity|].
  intros e post He. now rewrite (find_entry_fp_loop_stops pre post e Hpre He 0).
Qed.

(** ** The backward-jump thunks and the empty function *)

Section ThunksAndEmpty.
Context {arch : Arch} {backend : Backend}.

Lemma emit_timeout_thunks_layout (jumps : list BackwardJump) (c : Compiler) :
  let size := insn_size (OpCall (backend_label throw_timeout_)) in
  let '(jumps', c') := emit_timeout_thunks jumps c in
  map bj_timeout_offset jumps' =
    map (fun i => pc (masm c) + Z.of_nat i * size) (seq 0 (length jumps)) /\
  cip_map_ c' =
    cip_map_ c ++
    map (fun j => {| cipoffs := bj_cip j;
                     pcoffs := bj_timeout_offset j + size |}) jumps' /\
  error_ c' = error_ c /\
  pc (masm c') = pc (masm c) + Z.of_nat (length jumps) * size.
Proof.
  intros size. revert c. induction jumps as [|jump jumps IH]; intros c;
    cbn [emit_timeout_thunks].
  - cbn. rewrite app_nil_r. repeat split; auto. lia.
  - match goal with
    | |- context [emit_timeout_thunks jumps ?c2] =>
        pose proof (IH c2) as H; destruct (emit_timeout_thunks jumps c2)
          as [jumps' c']
    end.
    destruct H as (Ht & Hc & He & Hp).
    cbn [pc masm emitCipMapping set_cip_map set_masm call append cip_map_ error_]
      in Ht, Hc, He, Hp.
    fold size in Ht, Hc, Hp.
    cbn [map length seq bj_timeout_offset bj_cip].
    split; [|split; [|split]].
    + f_equal; [lia|]. rewrite Ht, <- seq_shift, map_map.
      apply map_ext. intros i. rewrite Nat2Z.inj_succ. lia.
    + rewrite Hc, <- app_assoc. reflexivity.
    + exact He.
    + rewrite Hp, Nat2Z.inj_succ. lia.
Qed.

(** X16: the backward-jump loop gives every record its thunk and its
    cip-map entry.  The records keep their branch pc and cip; one call to
    the timeout path is appended per record; the thunks are contiguous,
    the [timeout_offset] of record [i] being the pc the loop started at
    plus [i] calls; and the cip map gains, per record, an entry for the
    record's cip at the return address of its call.  The error field is
    not touched. *)
Theorem backward_jump_thunks_layout (c : Compiler) :
  let size := insn_size (OpCall (backend_label throw_timeout_)) in
  let c' := emit_backward_jump_thunks c in
  same_branches (backward_jumps_ c) (backward_jumps_ c') /\
  buffer (masm c') = buffer (masm c) ++ thunk_ops (backward_jumps_ c) /\
  map bj_timeout_offset (backward_jumps_ c') =
    map (fun i => pc (masm c) + Z.of_nat i * size)
        (seq 0 (length (backward_jumps_ c))) /\
  cip_map_ c' =
    cip_map_ c ++
    map (fun j => {| cipoffs := bj_cip j;
                     pcoffs := bj_timeout_offset j + size |})
        (backward_jumps_ c') /\
  error_ c' = error_ c.
Proof.
  intros size c'.
  pose proof (emit_backward_jump_thunks_masm c) as Hm.
  pose proof (emit_timeout_thunks_layout (backward_jumps_ c) c) as Hl.
  pose proof (emit_timeout_thunks_records (backward_jumps_ c) c) as Hr.
  subst c'. unfold emit_backward_jump_thunks in *.
  destruct (emit_timeout_thunks (backward_jumps_ c) c) as [jumps' c1].
  cbn [fst] in Hr. destruct Hl as (Ht & Hc & He & _).
  cbn [backward_jumps_ set_backward_jumps cip_map_ error_ masm] in *.
  split; [exact Hr|]. split; [now rewrite Hm, buffer_appends|].
  auto.
Qed.

Lemma run_visits_nil (c : Compiler) :
  more (reader_at_start c) = false \/
  is_boundary (peekOpcode (reader_at_start c)) = true ->
  run_visits c = [] /\ after_decode_loop c = after_prologue c.
Proof.
  intros H. unfold run_visits, after_decode_loop, run_decode_loop.
  destruct (cells_left (reader_at_start c)) as [|fuel];
    cbn [decode_loop decode_visits snd]; [auto|].
  destruct (more (reader_at_start c)); [|auto].
  destruct (is_boundary (peekOpcode (reader_at_start c))); [auto|].
  destruct H; discriminate.
Qed.

Lemma empty_function_layout (c c' : Compiler) (fn : CompiledFunction) :
  ool_paths_ c = [] -> backward_jumps_ c = [] ->
  more (reader_at_start c) = false \/
  is_boundary (peekOpcode (reader_at_start c)) = true ->
  emit c = (Some fn, c') ->
  run_visits c = [] /\
  cf_edges fn = [] /\
  ool_paths_ c' = [] /\
  jump_binds (emit_layout c) = [] /\
  emit_layout c =
    flat_map emit_action_ops (emitPrologue c) ++
    flat_map (throw_path_if_used (masm (after_prologue c))) throw_path_errors ++
    flat_map emit_action_ops (emitErrorHandlers (after_throw_paths c)).
Proof.
  intros Ho Hbj Hempty He.
  destruct (run_visits_nil c Hempty) as [Hv Ha].
  assert (Hp : ool_paths_ (after_prologue c) = [] /\
               backward_jumps_ (after_prologue c) = [] /\
               masm (after_prologue c) =
                 appends (flat_map emit_action_ops (emitPrologue c)) (masm c)).
  { unfold after_prologue.
    destruct (run_emit_registries (emitPrologue c) c) as (-> & -> & _).
    now rewrite masm_run_emit. }
  destruct Hp as (Hp1 & Hp2 & Hp3).
  assert (Hb : masm (before_throw_paths c) = masm (after_prologue c)).
  { rewrite before_throw_paths_masm, Ha, Hv, Hp1, Hp2, Hp3.
    cbn [flat_map ool_ops thunk_ops map app]. now rewrite app_nil_r. }
  split; [exact Hv|]. split; [|split; [|split]].
  - destruct (emit_Some_backward_jumps _ _ _ He) as [-> Hpc].
    rewrite Ha, Hp2 in Hpc. cbn [map] in Hpc.
    apply map_eq_nil in Hpc. now rewrite Hpc.
  - now rewrite (emit_Some_ool_paths _ _ _ He), Ha.
  - destruct (emit_layout_binds c) as (-> & _ & _). now rewrite Hv.
  - unfold emit_layout. rewrite Hb, Ha, Hv, Hp1, Hp2. reflexivity.
Qed.

(** X17: a function with no instruction (the reader, once begun, is at
    the end of the code or at a [PROC] or [ENDPROC]) still compiles: no
    visitor runs, no jump-map label is bound, there is no out-of-line
    path and no loop edge, and the code is the prologue followed by the
    shared error paths the prologue made necessary and the error
    handlers. *)
Theorem empty_function_compiles_to_prologue_and_tail
  (code : list cell_t) (pcode_offs : Z) (c' : Compiler) (fn : CompiledFunction) :
  more (reader_at_start (new_Compiler code pcode_offs)) = false \/
  is_boundary (peekOpcode (reader_at_start (new_Compiler code pcode_offs))) = true ->
  emit (new_Compiler code pcode_offs) = (Some fn, c') ->
  run_visits (new_Compiler code pcode_offs) = [] /\
  cf_edges fn = [] /\
  ool_paths_ c' = [] /\
  jump_binds (buffer (masm c')) = [] /\
  buffer (masm c') =
    flat_map emit_action_ops (emitPrologue (new_Compiler code pcode_offs)) ++
    flat_map (throw_path_if_used
                (masm (after_prologue (new_Compiler code pcode_offs))))
             throw_path_errors ++
    flat_map emit_action_ops
      (emitErrorHandlers (after_throw_paths (new_Compiler code pcode_offs))).
Proof.
  intros Hempty He. rewrite (emit_new_buffer _ _ _ _ He).
  now apply (empty_function_layout _ c' fn).
Qed.

End ThunksAndEmpty.

(** ** More runs on the sample backend *)

Section MoreSampleRuns.
Import Sample.

Lemma looping_compiles :
  exists fn c', emit (new_Compiler looping 0) = (Some fn, c').
Proof.
  destruct (emit (new_Compiler looping 0)) as [[fn|] c'] eqn:E.
  - now exists fn, c'.
  - exfalso. apply (f_equal fst) in E. vm_compute in E. discriminate.
Qed.

Lemma emit_lays_out_phases_in_order_witness :
  exists fn c',
    emit (new_Compiler looping 0) = (Some fn, c') /\
    buffer (masm c') =
      buffer (masm (new_Compiler looping 0)) ++
      flat_map emit_action_ops (emitPrologue (new_Compiler looping 0)) ++
      flat_map visit_ops (run_visits (new_Compiler looping 0)) ++
      ool_ops 0 (ool_paths_ (after_decode_loop (new_Compiler looping 0)))
              (after_decode_loop (new_Compiler looping 0)) ++
      thunk_ops (backward_jumps_ (after_decode_loop (new_Compiler looping 0))) ++
      flat_map (throw_path_if_used
                  (masm (before_throw_paths (new_Compiler looping 0))))
               throw_path_errors ++
      flat_map emit_action_ops
        (emitErrorHandlers (after_throw_paths (new_Compiler looping 0))).
Proof.
  destruct looping_compiles as (fn & c' & E). exists fn, c'.
  split; [exact E|].
  exact (emit_lays_out_phases_in_order (new_Compiler looping 0) c' fn E).
Defined.

Lemma jump_map_bound_once_per_instruction_witness :
  exists fn c',
    emit (new_Compiler looping 0) = (Some fn, c') /\
    jump_binds (buffer (masm c')) =
      map (fun v => cip (v_reader v)) (run_visits (new_Compiler looping 0)) /\
    NoDup (jump_binds (buffer (masm c'))).
Proof.
  destruct looping_compiles as (fn & c' & E). exists fn, c'.
  split; [exact E|].
  destruct (jump_map_bound_once_per_instruction looping 0 c' fn E)
    as (H1 & _ & H3 & _).
  split; [exact H1 | exact H3].
Defined.

Lemma jump_map_index_in_bounds_witness :
  exists v,
    In v (run_visits (new_Compiler looping 0)) /\
    0 <= cip (v_reader v) < Z.of_nat (length looping) /\
    cip (v_reader v) < nmaxops looping - 1.
Proof.
  destruct (nth_error (run_visits (new_Compiler looping 0)) 1) as [v|] eqn:E.
  - apply nth_error_In in E. exists v. split; [exact E|].
    exact (jump_map_index_in_bounds (new_Compiler looping 0) v E).
  - exfalso. apply nth_error_None in E. vm_compute in E. lia.
Defined.

Lemma out_of_line_labels_bound_in_order_witness :
  exists fn c',
    emit (new_Compiler looping 0) = (Some fn, c') /\
    ool_binds (buffer (masm c')) = seq 0 (length (ool_paths_ c')).
Proof.
  destruct looping_compiles as (fn & c' & E). exists fn, c'.
  split; [exact E|].
  exact (proj1 (out_of_line_labels_bound_in_order looping 0 c' fn E)).
Defined.

Lemma shared_error_paths_once_in_order_witness :
  exists fn c',
    emit (new_Compiler looping 0) = (Some fn, c') /\
    buffer (masm c') =
      buffer (masm (before_throw_paths (new_Compiler looping 0))) ++
      flat_map (fun err => [OpBind (throw_error_code_ err); OpMovErr err;
                            OpJump (backend_label report_error_)])
               (used_throw_paths
                  (masm (before_throw_paths (new_Compiler looping 0)))) ++
      flat_map emit_action_ops
        (emitErrorHandlers (after_throw_paths (new_Compiler looping 0))) /\
    throw_binds (buffer (masm c')) =
      used_throw_paths (masm (before_throw_paths (new_Compiler looping 0))) /\
    NoDup (throw_binds (buffer (masm c'))).
Proof.
  destruct looping_compiles as (fn & c' & E). exists fn, c'.
  split; [exact E|].
  destruct (shared_error_paths_once_in_order looping 0 c' fn E)
    as (H0 & _ & _ & H1 & H2 & _).
  split; [exact H0|]. split; [exact H1 | exact H2].
Defined.

Lemma unlisted_error_slot_never_bound_witness :
  exists fn c',
    emit (new_Compiler looping 0) = (Some fn, c') /\
    ~ In SP_ERROR_INVALID_INSTRUCTION throw_path_errors /\
    ~ throw_path_emitted SP_ERROR_INVALID_INSTRUCTION (buffer (masm c')) /\
    bound (labels (masm c') (throw_error_code_ SP_ERROR_INVALID_INSTRUCTION))
      = false.
Proof.
  destruct looping_compiles as (fn & c' & E). exists fn, c'.
  split; [exact E|].
  assert (Hn : ~ In SP_ERROR_INVALID_INSTRUCTION throw_path_errors).
  { simpl. intros H. repeat destruct H as [H|H]; try discriminate H; exact H. }
  split; [exact Hn|].
  exact (unlisted_error_slot_never_bound
           looping 0 SP_ERROR_INVALID_INSTRUCTION c' fn E Hn).
Defined.

Lemma registered_error_path_has_its_shared_path_witness :
  exists fn c',
    emit (new_Compiler looping 0) = (Some fn, c') /\
    In (ErrorPath 1 SP_ERROR_ARRAY_BOUNDS) (ool_paths_ c') /\
    In SP_ERROR_ARRAY_BOUNDS throw_path_errors /\
    In (OpCall (throw_error_code_ SP_ERROR_ARRAY_BOUNDS)) (buffer (masm c')) /\
    contains [OpBind (throw_error_code_ SP_ERROR_ARRAY_BOUNDS);
              OpMovErr SP_ERROR_ARRAY_BOUNDS;
              OpJump (backend_label report_error_)] (buffer (masm c')).
Proof.
  destruct (emit (new_Compiler looping 0)) as [[fn|] c'] eqn:E.
  - exists fn, c'. split; [reflexivity|].
    assert (Hp : In (ErrorPath 1 SP_ERROR_ARRAY_BOUNDS) (ool_paths_ c')).
    { change c' with (snd (Some fn, c')). rewrite <- E.
      vm_compute. now left. }
    assert (Hl : In SP_ERROR_ARRAY_BOUNDS throw_path_errors)
      by (simpl; auto).
    split; [exact Hp|]. split; [exact Hl|].
    destruct (registered_error_path_has_its_shared_path
                looping 0 1 SP_ERROR_ARRAY_BOUNDS c' fn E Hp Hl)
      as (H1 & H2 & _).
    split; [exact H1 | exact H2].
  - exfalso. apply (f_equal fst) in E. vm_compute in E. discriminate.
Defined.

Lemma emit_result_witness :
  exists fn c',
    emit (new_Compiler looping 0) = (Some fn, c') /\
    error_ c' = SP_ERROR_NONE /\
    GetEntryAddress fn = LinkCode (masm c') /\
    GetEntryAddress fn <> 0 /\
    cf_pcode_offs fn = pcode_start_ (new_Compiler looping 0) /\
    cf_cipmap fn = cip_map_ c' /\
    rt_code c' = rt_code (new_Compiler looping 0).
Proof.
  destruct looping_compiles as (fn & c' & E). exists fn, c'.
  split; [exact E|].
  exact (emit_result (new_Compiler looping 0) c' fn E).
Defined.

Lemma link_failure_is_out_of_memory_witness :
  fst (@emit x86 SampleMore.no_memory (new_Compiler minimal 0)) = None /\
  error (snd (@emit x86 SampleMore.no_memory (new_Compiler minimal 0))) =
    SP_ERROR_OUT_OF_MEMORY /\
  @Compile x86 SampleMore.no_memory (world minimal true None) 0
           {| pcode_offset := 0; Validate := SP_ERROR_NONE; jit := None |} 0 =
    (None, SP_ERROR_OUT_OF_MEMORY, log (RanCompile 0) (world minimal true None)).
Proof.
  apply (@link_failure_is_out_of_memory x86 SampleMore.no_memory
           (world minimal true None) 0
           {| pcode_offset := 0; Validate := SP_ERROR_NONE; jit := None |} 0).
  - intros [(v & Hin & Hf)|[(v & Hin & Hf)|[_ Herr]]].
    + vm_compute in Hin. destruct Hin as [<-|[]]. discriminate Hf.
    + vm_compute in Hin. destruct Hin as [<-|[]]. now apply Hf.
    + now apply Herr.
  - reflexivity.
Defined.

Lemma CompileFromThunk_compiles_once_witness :
  let w := world minimal true None in
  let '(status1, w1) := CompileFromThunk w 0 100 200 in
  let '(status2, w2) := CompileFromThunk w1 0 104 208 in
  status1 = SP_ERROR_NONE /\ status2 = SP_ERROR_NONE /\
  effects w2 = effects w1 ++ [StoreEntry 104 4103; PatchedCall 208 4103].
Proof.
  destruct (emit (new_Compiler minimal 0)) as [[fn|] cc'] eqn:E.
  - assert (Hfn : GetEntryAddress fn = 4103).
    { change fn with (match Some fn with Some f => f | None => fn end).
      change (Some fn) with (fst (Some fn, cc')). rewrite <- E.
      vm_compute. reflexivity. }
    pose proof (CompileFromThunk_compiles_once
                  (world minimal true None) 0 100 200 104 208
                  {| pcode_offset := 0; Validate := SP_ERROR_NONE; jit := None |}
                  fn cc' eq_refl eq_refl eq_refl eq_refl E) as H.
    cbv zeta in H |- *.
    destruct (CompileFromThunk (world minimal true None) 0 100 200)
      as [status1 w1].
    destruct (CompileFromThunk w1 0 104 208) as [status2 w2].
    destruct H as (H1 & H2 & _ & _ & _ & H6 & _).
    rewrite Hfn in H6. auto.
  - exfalso. apply (f_equal fst) in E. vm_compute in E. discriminate.
Defined.


Lemma CompileFromThunk_rejects_before_compiling_witness :
  CompileFromThunk (world minimal true None) 8 100 200 =
    (SP_ERROR_INVALID_ADDRESS, world minimal true None) /\
  fst (CompileFromThunk (world minimal true None) 8 100 200) <> SP_ERROR_NONE.
Proof.
  apply (CompileFromThunk_rejects_before_compiling
           (world minimal true None) 8 100 200 eq_refl I).
Defined.

Lemma find_entry_fp_without_entry_witness :
  Forall (fun f => frame_type f <> Entry) SampleMore.scripted_frames /\
  find_entry_fp SampleMore.scripted_frames = Some 152 /\
  find_entry_fp (SampleMore.scripted_frames ++ mkFrame Entry 200 :: []) =
    Some 152.
Proof.
  assert (H : Forall (fun f => frame_type f <> Entry) SampleMore.scripted_frames)
    by (repeat constructor; discriminate).
  split; [exact H|].
  destruct (find_entry_fp_without_entry SampleMore.scripted_frames H)
    as (H1 & _ & H2).
  split; [exact H1|].
  rewrite (H2 (mkFrame Entry 200) [] eq_refl). exact H1.
Defined.

Lemma empty_function_compiles_to_prologue_and_tail_witness :
  exists fn c',
    emit (new_Compiler SampleMore.empty_function 0) = (Some fn, c') /\
    run_visits (new_Compiler SampleMore.empty_function 0) = [] /\
    cf_edges fn = [] /\
    ool_paths_ c' = [] /\
    jump_binds (buffer (masm c')) = [].
Proof.
  destruct (emit (new_Compiler SampleMore.empty_function 0))
    as [[fn|] c'] eqn:E.
  - exists fn, c'. split; [reflexivity|].
    assert (Hb : is_boundary
                   (peekOpcode (reader_at_start
                                  (new_Compiler SampleMore.empty_function 0)))
                 = true) by reflexivity.
    destruct (empty_function_compiles_to_prologue_and_tail
                SampleMore.empty_function 0 c' fn
                (or_intror Hb) E) as (H1 & H2 & H3 & H4 & _).
    auto.
  - exfalso. apply (f_equal fst) in E. vm_compute in E. discriminate.
Defined.

End MoreSampleRuns.
